(** * A shallow embedding of scripts/update_badges.py

    The script fetches a user's Credly badges, groups them by issuer,
    renders an HTML fragment and splices it between two marker comments
    of README.md.

    Modelling conventions.
    - Python text is modelled as its UTF-8 encoding, a [list ascii] of
      bytes ([text]).  Slicing, concatenation and [str.find] act on the
      bytes exactly as on the code points, and the byte order of two UTF-8
      strings is the code-point order Python compares strings by.
    - A JSON value as [json.loads] returns it is the inductive [json].
      JSON numbers are modelled as integers.  An object is the list of its
      members in text order; looking a key up takes its last member, as
      the dict [json.loads] builds does, and iterating it yields each key
      once, in first-occurrence order.
    - Python exceptions are the constructors of [exn]; a computation that
      may raise returns a [result].
    - The process (README file, standard streams, exit) is a small state
      monad [proc] over [world]. *)

From Stdlib Require Import List Bool Arith Lia ZArith Ascii String.
From Stdlib Require Import Permutation Sorted Relations_1.
From Stdlib Require Import Numbers.DecimalString.
Import ListNotations.
(* [length], [++] and the list lemmas are those of lists, not of strings. *)
Import List.

Local Open Scope list_scope.

(** ** Text *)

Definition text := list ascii.

(** A source-level string literal as text. *)
Definition t (s : string) : text := list_ascii_of_string s.

Definition NL : ascii := ascii_of_nat 10.
Definition CR : ascii := ascii_of_nat 13.
Definition DQ : ascii := ascii_of_nat 34.

Definition text_eqb (a b : text) : bool :=
  if list_eq_dec ascii_dec a b then true else false.

(** Python's [<] on two strings: lexicographic on code points. *)
Fixpoint text_ltb (a b : text) : bool :=
  match a, b with
  | [], [] => false
  | [], _ :: _ => true
  | _ :: _, [] => false
  | x :: a', y :: b' =>
      if Nat.ltb (nat_of_ascii x) (nat_of_ascii y) then true
      else if Ascii.eqb x y then text_ltb a' b' else false
  end.

(** [sep.join(parts)] *)
Fixpoint join (sep : text) (parts : list text) : text :=
  match parts with
  | [] => []
  | [x] => x
  | x :: r => x ++ sep ++ join sep r
  end.

(** [str(z)] for an integer. *)
Definition z_str (z : Z) : text := t (NilZero.string_of_int (Z.to_int z)).

(** ** JSON values and Python exceptions *)

Set Warnings "-register-all".

Inductive json : Type :=
| JNull
| JBool (b : bool)
| JNum (z : Z)
| JStr (s : text)
| JArr (l : list json)
| JObj (members : list (text * json)).

Inductive exn : Type :=
| KeyError | IndexError | TypeError | AttributeError
| URLError | TimeoutError | JSONDecodeError.

Inductive result (A : Type) : Type :=
| Ok (a : A)
| Raise (e : exn).
Arguments Ok {A} a.
Arguments Raise {A} e.

Definition rbind {A B} (r : result A) (k : A -> result B) : result B :=
  match r with
  | Ok a => k a
  | Raise e => Raise e
  end.

Notation "'let*' x ':=' r 'in' k" := (rbind r (fun x => k))
  (at level 200, x name, r at level 100, k at level 200).

(** Evaluate [f] on each element, left to right, stopping at the first
    exception (a generator or loop over [l]). *)
Fixpoint map_result {A B} (f : A -> result B) (l : list A) : result (list B) :=
  match l with
  | [] => Ok []
  | x :: r =>
      let* y := f x in
      let* ys := map_result f r in
      Ok (y :: ys)
  end.

(** ** Python operations on JSON values *)

(** Member lookup in a parsed object: the last member with the key wins. *)
Fixpoint obj_get (k : text) (l : list (text * json)) : option json :=
  match l with
  | [] => None
  | (k', v) :: r =>
      match obj_get k r with
      | Some w => Some w
      | None => if text_eqb k k' then Some v else None
      end
  end.

(** [v[k]] for a string key [k]. *)
Definition getitem_key (v : json) (k : text) : result json :=
  match v with
  | JObj l => match obj_get k l with Some w => Ok w | None => Raise KeyError end
  | _ => Raise TypeError  (* list/str indices must be integers; scalars are not subscriptable *)
  end.

(** [v[0]] *)
Definition getitem_0 (v : json) : result json :=
  match v with
  | JArr [] => Raise IndexError
  | JArr (x :: _) => Ok x
  | JStr [] => Raise IndexError
  | JStr (c :: _) => Ok (JStr [c])
  | JObj _ => Raise KeyError  (* the keys of a parsed object are strings, never 0 *)
  | _ => Raise TypeError
  end.

(** [d.get(k, default)] *)
Definition get_default (v : json) (k : text) (d : json) : result json :=
  match v with
  | JObj l => match obj_get k l with Some w => Ok w | None => Ok d end
  | _ => Raise AttributeError
  end.

(** The keys of an object, each once, in first-occurrence order. *)
Fixpoint obj_keys (l : list (text * json)) : list text :=
  match l with
  | [] => []
  | (k, _) :: r => k :: filter (fun k' => negb (text_eqb k k')) (obj_keys r)
  end.

(** [for x in v] *)
Definition py_iter (v : json) : result (list json) :=
  match v with
  | JArr l => Ok l
  | JObj l => Ok (map JStr (obj_keys l))
  | JStr s => Ok (map (fun c => JStr [c]) s)
  | _ => Raise TypeError
  end.

(** Python's [<] on the values used here as sort keys: strings by code
    point, numbers and booleans as integers; any other pair raises
    [TypeError].  (Python also orders two lists lexicographically; list
    values are not modelled as sort keys.) *)
Definition num_of (v : json) : option Z :=
  match v with
  | JNum z => Some z
  | JBool b => Some (if b then 1%Z else 0%Z)
  | _ => None
  end.

Definition py_lt (a b : json) : result bool :=
  match a, b with
  | JStr x, JStr y => Ok (text_ltb x y)
  | _, _ =>
      match num_of a, num_of b with
      | Some x, Some y => Ok (Z.ltb x y)
      | _, _ => Raise TypeError
      end
  end.

(** Equality of two dict keys ([hash] and [==]); [1 == True]. *)
Definition py_key_eqb (a b : json) : bool :=
  match a, b with
  | JStr x, JStr y => text_eqb x y
  | JNull, JNull => true
  | _, _ =>
      match num_of a, num_of b with
      | Some x, Some y => Z.eqb x y
      | _, _ => false
      end
  end.

Definition hashable (v : json) : bool :=
  match v with
  | JArr _ | JObj _ => false
  | _ => true
  end.

(** ** Configuration constants *)

Definition START_MARKER : text := t "<!-- CREDLY_BADGES_START -->".
Definition END_MARKER : text := t "<!-- CREDLY_BADGES_END -->".
Definition ISSUER_ORDER : list text :=
  [t "The Linux Foundation"; t "IBM"; t "Isovalent"].
Definition OTHER : text := t "Other".

(** ** issuer_name *)

Definition issuer_path (badge : json) : result json :=
  let* tmpl := getitem_key badge (t "badge_template") in
  let* iss := getitem_key tmpl (t "issuer") in
  let* ents := getitem_key iss (t "entities") in
  let* e0 := getitem_0 ents in
  let* ent := getitem_key e0 (t "entity") in
  getitem_key ent (t "name").

(** [try: ... except (KeyError, IndexError): return "Other"] *)
Definition issuer_name (badge : json) : result json :=
  match issuer_path badge with
  | Raise KeyError | Raise IndexError => Ok (JStr OTHER)
  | r => r
  end.

(** ** Sorting

    CPython's [list.sort] and [sorted] are stable: on keys that Python
    orders, the result is the unique stable order, so a stable insertion
    sort computes the same list.  [list.sort(reverse=True)] reverses the
    list, sorts it stably ascending and reverses the result again; this
    is written out below. *)

Section Sort.
Variable A : Type.
Variable key : A -> json.

(** Insert [x] before the first element [y] with [key x < key y]. *)
Fixpoint ins (x : A) (l : list A) : result (list A) :=
  match l with
  | [] => Ok [x]
  | y :: r =>
      let* c := py_lt (key x) (key y) in
      if c then Ok (x :: y :: r)
      else let* r' := ins x r in Ok (y :: r')
  end.

Fixpoint isort_acc (acc : list A) (l : list A) : result (list A) :=
  match l with
  | [] => Ok acc
  | x :: r => let* acc' := ins x acc in isort_acc acc' r
  end.

(** [sorted(l, key=key)] *)
Definition sort_by (l : list A) : result (list A) := isort_acc [] l.

(** [l.sort(key=key, reverse=True)] *)
Definition sort_by_desc (l : list A) : result (list A) :=
  let* s := sort_by (rev l) in Ok (rev s).

End Sort.

Arguments ins {A} key x l.
Arguments isort_acc {A} key acc l.
Arguments sort_by {A} key l.
Arguments sort_by_desc {A} key l.

(** ** group_badges *)

Definition group := (json * list json)%type.

(** [groups.setdefault(issuer, []).append(badge)] on an insertion-ordered
    dict. *)
Fixpoint setdefault_append (k : json) (b : json) (gs : list group) : list group :=
  match gs with
  | [] => [(k, [b])]
  | (k', l) :: r =>
      if py_key_eqb k' k then (k', l ++ [b]) :: r
      else (k', l) :: setdefault_append k b r
  end.

(** [for badge in badges: issuer = issuer_name(badge); groups.setdefault(...)] *)
Fixpoint accumulate (gs : list group) (bs : list json) : result (list group) :=
  match bs with
  | [] => Ok gs
  | b :: r =>
      let* k := issuer_name b in
      if hashable k then accumulate (setdefault_append k b gs) r
      else Raise TypeError
  end.

(** [b.get("issued_at_date", "")] *)
Definition date_key (b : json) : result json :=
  get_default b (t "issued_at_date") (JStr []).

(** CPython computes every key before it compares any two. *)
Definition sort_group (l : list json) : result (list json) :=
  let* ks := map_result date_key l in
  let* s := sort_by_desc fst (combine ks l) in
  Ok (map snd s).

(** [for group in groups.values(): group.sort(...)] *)
Definition sort_groups (gs : list group) : result (list group) :=
  map_result (fun '(k, l) => let* l' := sort_group l in Ok (k, l')) gs.

(** [groups.pop(name)]: the group and the dict without it, if present. *)
Fixpoint pop (k : json) (gs : list group) : option (list json * list group) :=
  match gs with
  | [] => None
  | (k', l) :: r =>
      if py_key_eqb k k' then Some (l, r)
      else match pop k r with
           | Some (l', r') => Some (l', (k', l) :: r')
           | None => None
           end
  end.

(** [known = {name: groups.pop(name) for name in ISSUER_ORDER if name in groups}];
    returns [known] and what is left of [groups]. *)
Fixpoint pop_known (names : list text) (gs : list group) : list group * list group :=
  match names with
  | [] => ([], gs)
  | n :: ns =>
      match pop (JStr n) gs with
      | Some (l, gs') =>
          let (known, rest) := pop_known ns gs' in ((JStr n, l) :: known, rest)
      | None => pop_known ns gs
      end
  end.

(** [sorted(groups.items())]: the dict keys are pairwise unequal, so
    comparing two items compares their keys. *)
Definition group_badges (badges : json) : result (list group) :=
  let* bs := py_iter badges in
  let* groups := accumulate [] bs in
  let* groups := sort_groups groups in
  let (known, rest) := pop_known ISSUER_ORDER groups in
  let* unknown := sort_by fst rest in
  Ok (known ++ unknown).

(** ** badge_html and render_section

    An f-string formats a value with [str].  How [str] prints a list or a
    dict (its [repr]) plays no part in the properties below; it is the
    section variable [container_str], so every theorem holds for any such
    printing. *)

Section Render.
Variable container_str : json -> text.

Definition py_str (v : json) : text :=
  match v with
  | JStr s => s
  | JNum z => z_str z
  | JBool true => t "True"
  | JBool false => t "False"
  | JNull => t "None"
  | JArr _ | JObj _ => container_str v
  end.

Definition badge_html (badge : json) : result text :=
  let* badge_id := getitem_key badge (t "id") in
  let* tmpl := getitem_key badge (t "badge_template") in
  let* name := getitem_key tmpl (t "name") in
  let* image_url := getitem_key tmpl (t "image_url") in
  Ok (t "<a href=" ++ [DQ] ++ t "https://www.credly.com/badges/" ++ py_str badge_id
      ++ t "/public_url" ++ [DQ] ++ t ">"
      ++ t "<img height=" ++ [DQ] ++ t "90" ++ [DQ] ++ t " width=" ++ [DQ] ++ t "90" ++ [DQ]
      ++ t " src=" ++ [DQ] ++ py_str image_url ++ [DQ]
      ++ t " alt=" ++ [DQ] ++ py_str name ++ [DQ] ++ t "/></a>").

Definition HEADING : text := t "### Certificates & Badges".

(** The lines the loop [for issuer, badges in grouped.items()] appends. *)
Fixpoint group_lines (grouped : list group) : result (list text) :=
  match grouped with
  | [] => Ok []
  | (issuer, badges) :: r =>
      let* frags := map_result badge_html badges in
      let* rest := group_lines r in
      Ok ((t "**" ++ py_str issuer ++ t "**") :: [] :: join (t " ") frags :: [] :: rest)
  end.

Definition render_section (grouped : list group) : result text :=
  let* ls := group_lines grouped in
  Ok (join [NL] (HEADING :: [] :: ls)).

End Render.

(** ** The process: README file, standard streams and exit status *)

(** The messages the script prints. *)
Inductive msg : Type :=
| MFetchWarning (e : exn)  (* stderr: "WARNING: Failed to fetch badges: {e}" *)
| MKeeping                 (* stdout: "Keeping existing README content." *)
| MMarkerError             (* stderr: "ERROR: Marker comments not found in README.md" *)
| MNoChanges               (* stdout: "No changes needed." *)
| MUpdated.                (* stdout: "README.md updated with badges." *)

Inductive event : Type :=
| ERead                    (* README_PATH.read_text() *)
| EWrite (content : text)  (* README_PATH.write_text(content) *)
| EOut (m : msg)
| EErr (m : msg).

(** [file] holds the bytes of README.md; [trace] the I/O performed. *)
Record world : Type := mkWorld { file : text; trace : list event }.

Inductive stop : Type :=
| Exit (code : Z)   (* sys.exit(code), or 0 when main returns *)
| Crash (e : exn).  (* an uncaught exception: traceback, status 1 *)

Definition proc (A : Type) : Type := world -> (stop + A) * world.

Definition ret {A} (a : A) : proc A := fun w => (inr a, w).

Definition pbind {A B} (c : proc A) (k : A -> proc B) : proc B :=
  fun w => match c w with
           | (inl s, w') => (inl s, w')
           | (inr a, w') => k a w'
           end.

Notation "x <- c ;; k" := (pbind c (fun x => k))
  (at level 61, c at next level, right associativity).
Notation "c ;;; k" := (pbind c (fun _ => k))
  (at level 61, right associativity).

Definition emit (e : event) : proc unit :=
  fun w => (inr tt, mkWorld (file w) (trace w ++ [e])).

Definition sys_exit {A} (code : Z) : proc A := fun w => (inl (Exit code), w).

(** An exception of [r] propagates uncaught. *)
Definition lift {A} (r : result A) : proc A :=
  fun w => match r with
           | Ok a => (inr a, w)
           | Raise e => (inl (Crash e), w)
           end.

(** [open(mode="r")] reads with universal newlines: "\r\n" and a lone
    "\r" are read as "\n".  (The file is taken to be valid UTF-8.) *)
Fixpoint universal_newlines (b : text) : text :=
  match b with
  | [] => []
  | c :: r =>
      if Ascii.eqb c CR then
        match r with
        | d :: r' => if Ascii.eqb d NL then NL :: universal_newlines r'
                     else NL :: universal_newlines r
        | [] => [NL]
        end
      else c :: universal_newlines r
  end.

Definition read_text : proc text :=
  fun w => (inr (universal_newlines (file w)), mkWorld (file w) (trace w ++ [ERead])).

(** [open(mode="w")] on POSIX writes "\n" as it is. *)
Definition write_text (content : text) : proc unit :=
  fun w => (inr tt, mkWorld content (trace w ++ [EWrite content])).

(** [str.find]: the first index at which [pat] occurs, [None] for -1. *)
Fixpoint find (pat s : text) : option nat :=
  if text_eqb (firstn (length pat) s) pat then Some 0
  else match s with
       | [] => None
       | _ :: s' => option_map S (find pat s')
       end.

Definition update_readme (section_content : text) : proc unit :=
  readme <- read_text ;;
  match find START_MARKER readme, find END_MARKER readme with
  | Some start, Some end_ =>
      let new_content :=
        firstn (start + length START_MARKER) readme ++ [NL] ++ section_content
        ++ skipn end_ readme in
      if text_eqb new_content readme then emit (EOut MNoChanges)
      else write_text new_content ;;; emit (EOut MUpdated)
  | _, _ => emit (EErr MMarkerError) ;;; sys_exit 1
  end.

(** ** fetch_badges and main *)

(** What the single HTTP request yields: a network error (also an HTTP
    error status), a timeout, or a body, which is valid JSON or not. *)
Inductive response : Type :=
| RNetError
| RTimeout
| RBody (parsed : option json).

(** [json.loads(resp.read())["data"]] *)
Definition fetch_badges (resp : response) : result json :=
  match resp with
  | RNetError => Raise URLError
  | RTimeout => Raise TimeoutError
  | RBody None => Raise JSONDecodeError
  | RBody (Some j) => getitem_key j (t "data")
  end.

Section Main.
Variable container_str : json -> text.

Definition main (resp : response) : proc unit :=
  match fetch_badges resp with
  | Raise e =>
      (* except Exception as e *)
      emit (EErr (MFetchWarning e)) ;;; emit (EOut MKeeping) ;;; sys_exit 0
  | Ok badges =>
      grouped <- lift (group_badges badges) ;;
      section <- lift (render_section container_str grouped) ;;
      update_readme section
  end.

(** The whole run: how the process ends and the world it leaves. *)
Definition run_main (resp : response) (w : world) : stop * world :=
  match main resp w with
  | (inl s, w') => (s, w')
  | (inr _, w') => (Exit 0, w')
  end.

End Main.

(** ** Reading of the spec's issuer traversal

    [badge.badge_template.issuer.entities[0].entity.name] along dicts and a
    list, [None] as soon as a step is missing or the list is empty. *)

Definition member (k : text) (v : json) : option json :=
  match v with JObj l => obj_get k l | _ => None end.

Definition first_elem (v : json) : option json :=
  match v with JArr (x :: _) => Some x | _ => None end.

Definition issuer_traverse (badge : json) : option json :=
  match member (t "badge_template") badge with None => None | Some tmpl =>
  match member (t "issuer") tmpl with None => None | Some iss =>
  match member (t "entities") iss with None => None | Some ents =>
  match first_elem ents with None => None | Some e0 =>
  match member (t "entity") e0 with None => None | Some ent =>
  member (t "name") ent end end end end end.

Definition is_obj (v : json) : bool := match v with JObj _ => true | _ => false end.
Definition is_arr (v : json) : bool := match v with JArr _ => true | _ => false end.

Definition opt_all (o : option json) (p : json -> bool) : bool :=
  match o with None => true | Some v => p v end.

(** Every value on the issuer path that is present has the shape the spec
    describes: a dict, except [entities], a list. *)
Definition issuer_shape_ok (badge : json) : bool :=
  is_obj badge &&
  opt_all (member (t "badge_template") badge) (fun tmpl => is_obj tmpl &&
  opt_all (member (t "issuer") tmpl) (fun iss => is_obj iss &&
  opt_all (member (t "entities") iss) (fun ents => is_arr ents &&
  opt_all (first_elem ents) (fun e0 => is_obj e0 &&
  opt_all (member (t "entity") e0) is_obj)))).

(** ** The end of a run that reaches the patcher *)

Definition finish (r : (stop + unit) * world) : stop * world :=
  match r with
  | (inl s, w') => (s, w')
  | (inr _, w') => (Exit 0, w')
  end.

(** * Lemmas and theorems *)

Ltac destruct_matches :=
  repeat match goal with
         | |- context [match ?x with _ => _ end] => destruct x eqn:?
         end.

Ltac close_cases :=
  repeat split; intros;
  first [ congruence | left; congruence | right; congruence ].

Lemma run_main_patch cs resp w data g sec :
  fetch_badges resp = Ok data ->
  group_badges data = Ok g ->
  render_section cs g = Ok sec ->
  run_main cs resp w = finish (update_readme sec w).
Proof.
  intros Hf Hg Hr. unfold run_main, main. rewrite Hf. cbn.
  rewrite Hg. cbn. rewrite Hr. cbn. destruct (update_readme sec w) as [[s|u] w']; reflexivity.
Qed.

(** C3 (counterexample): a badge whose [issuer] is [null] makes
    [issuer_name] raise [TypeError] ([None["entities"]]). *)
Lemma C3_issuer_null_raises :
  issuer_name (JObj [(t "badge_template", JObj [(t "issuer", JNull)])]) = Raise TypeError.
Proof. vm_compute. reflexivity. Qed.

(** C3 (amended): [issuer_name] returns the value at
    [badge_template.issuer.entities[0].entity.name] or "Other", and the only
    exception it lets through is [TypeError] (a value on the path of a type
    that cannot be subscripted that way); when every value present on the
    path is the dict or list the spec describes, it never raises, and a
    missing step or an empty list gives "Other". *)
Theorem C3_issuer_name_total (badge : json) :
  (forall v, issuer_name badge = Ok v -> issuer_traverse badge = Some v \/ v = JStr OTHER) /\
  (forall e, issuer_name badge = Raise e -> e = TypeError) /\
  (issuer_shape_ok badge = true ->
   issuer_name badge = Ok (match issuer_traverse badge with Some v => v | None => JStr OTHER end)).
Proof.
  unfold issuer_name, issuer_path, issuer_traverse, issuer_shape_ok.
  repeat (cbn;
    match goal with
    | |- context [match obj_get ?k ?l with _ => _ end] => destruct (obj_get k l)
    | |- context [match ?x with _ => _ end] => is_var x; destruct x
    | |- context [getitem_key ?x _] => is_var x; destruct x
    | |- context [getitem_0 ?x] => is_var x; destruct x
    end);
  cbn; close_cases.
Qed.

(** C8: when fetching raises, whatever the exception, the run prints the
    warning and "Keeping existing README content.", neither reads nor
    writes README.md, and exits with status 0. *)
Theorem C8_fetch_failure_keeps_readme cs resp w e :
  fetch_badges resp = Raise e ->
  run_main cs resp w =
    (Exit 0, mkWorld (file w) (trace w ++ [EErr (MFetchWarning e); EOut MKeeping])).
Proof.
  intros Hf. unfold run_main, main. rewrite Hf. cbn. rewrite <- app_assoc. reflexivity.
Qed.

Lemma C8_witness :
  fetch_badges RTimeout = Raise TimeoutError /\
  run_main (fun _ => []) RTimeout (mkWorld (t "README") []) =
    (Exit 0, mkWorld (t "README") ([] ++ [EErr (MFetchWarning TimeoutError); EOut MKeeping])).
Proof.
  split; [reflexivity|]. apply (C8_fetch_failure_keeps_readme (fun _ => []) RTimeout); reflexivity.
Defined.

(** C2 (counterexample): with the end marker before the start marker the
    patcher does not abort; it writes the spliced text, which repeats the
    start marker. *)
Lemma C2_reversed_markers_written :
  update_readme (t "S") (mkWorld (END_MARKER ++ START_MARKER) []) =
    (inr tt,
     mkWorld (END_MARKER ++ START_MARKER ++ [NL] ++ t "S" ++ END_MARKER ++ START_MARKER)
       [ERead; EWrite (END_MARKER ++ START_MARKER ++ [NL] ++ t "S" ++ END_MARKER ++ START_MARKER);
        EOut MUpdated]).
Proof. vm_compute. reflexivity. Qed.

(** ** [str.find] *)

Lemma text_eqb_true a b : text_eqb a b = true <-> a = b.
Proof. unfold text_eqb. destruct (list_eq_dec ascii_dec a b); split; congruence. Qed.

Lemma text_eqb_false a b : text_eqb a b = false <-> a <> b.
Proof. unfold text_eqb. destruct (list_eq_dec ascii_dec a b); split; congruence. Qed.

(** [pat] occurs in [s] at index [j]. *)
Definition occurs_at (pat s : text) (j : nat) : Prop :=
  firstn (length pat) (skipn j s) = pat.

Lemma occurs_at_cons pat c s j : occurs_at pat (c :: s) (S j) <-> occurs_at pat s j.
Proof. unfold occurs_at. rewrite skipn_cons. reflexivity. Qed.

Lemma find_Some pat s i :
  find pat s = Some i ->
  occurs_at pat s i /\ (forall j, j < i -> ~ occurs_at pat s j).
Proof.
  revert i. induction s as [|c s IH]; intros i H; cbn in H.
  - destruct (text_eqb _ pat) eqn:E; inversion H; subst.
    apply text_eqb_true in E. split; [exact E | intros; lia].
  - destruct (text_eqb (firstn (length pat) (c :: s)) pat) eqn:E.
    + inversion H; subst. apply text_eqb_true in E. split; [exact E | intros; lia].
    + destruct (find pat s) as [i'|] eqn:F; cbn in H; inversion H; subst.
      destruct (IH i' eq_refl) as [Hocc Hfirst]. split.
      * apply occurs_at_cons. exact Hocc.
      * intros [|j] Hj.
        -- apply text_eqb_false in E. exact E.
        -- rewrite occurs_at_cons. apply Hfirst. lia.
Qed.

Lemma find_first pat s i :
  occurs_at pat s i -> (forall j, j < i -> ~ occurs_at pat s j) ->
  find pat s = Some i.
Proof.
  revert i. induction s as [|c s IH]; intros i Hocc Hfirst; cbn.
  - destruct i as [|i].
    + assert (E : text_eqb (firstn (length pat) []) pat = true) by (apply text_eqb_true; exact Hocc).
      rewrite E. reflexivity.
    + exfalso. apply (Hfirst 0); [lia|]. unfold occurs_at in *. rewrite skipn_nil in Hocc. exact Hocc.
  - destruct i as [|i].
    + assert (E : text_eqb (firstn (length pat) (c :: s)) pat = true) by (apply text_eqb_true; exact Hocc).
      rewrite E. reflexivity.
    + destruct (text_eqb (firstn (length pat) (c :: s)) pat) eqn:E.
      * exfalso. apply (Hfirst 0); [lia|]. apply text_eqb_true in E. exact E.
      * rewrite (IH i).
        -- reflexivity.
        -- apply occurs_at_cons in Hocc. exact Hocc.
        -- intros j Hj Hj'. apply (Hfirst (S j)); [lia|]. apply occurs_at_cons. exact Hj'.
Qed.

Lemma find_None pat s : find pat s = None -> forall j, ~ occurs_at pat s j.
Proof.
  induction s as [|c s IH]; intros H j Hocc; cbn in H.
  - destruct (text_eqb _ pat) eqn:E; [discriminate|]. apply text_eqb_false in E.
    apply E. unfold occurs_at in Hocc. rewrite skipn_nil in Hocc. exact Hocc.
  - destruct (text_eqb (firstn (length pat) (c :: s)) pat) eqn:E; [discriminate|].
    destruct (find pat s) eqn:F; [discriminate|].
    destruct j as [|j].
    + apply text_eqb_false in E. apply E. exact Hocc.
    + apply occurs_at_cons in Hocc. exact (IH eq_refl j Hocc).
Qed.

Lemma occurs_at_app_l pat A X j :
  j + length pat <= length A -> (occurs_at pat (A ++ X) j <-> occurs_at pat A j).
Proof.
  intros Hlen. unfold occurs_at.
  rewrite skipn_app, firstn_app, length_skipn.
  replace (length pat - (length A - j)) with 0 by lia.
  rewrite firstn_0, app_nil_r. reflexivity.
Qed.

Lemma occurs_at_app_r pat A B j :
  occurs_at pat (A ++ B) (length A + j) <-> occurs_at pat B j.
Proof.
  unfold occurs_at. rewrite skipn_app, skipn_all2 by lia.
  replace (length A + j - length A) with j by lia. reflexivity.
Qed.

Lemma occurs_at_nth pat s j m d :
  occurs_at pat s j -> m < length pat -> nth (j + m) s d = nth m pat d.
Proof.
  unfold occurs_at. intros H Hm. rewrite <- H, nth_firstn, nth_skipn.
  destruct (Nat.ltb_spec m (length pat)); [reflexivity | lia].
Qed.

Lemma occurs_at_prefix pat s : occurs_at pat (pat ++ s) 0.
Proof.
  unfold occurs_at. cbn. rewrite firstn_app, firstn_all, Nat.sub_diag, firstn_0, app_nil_r.
  reflexivity.
Qed.

(** ** The two markers *)

Lemma START_MARKER_length : length START_MARKER = 28.
Proof. reflexivity. Qed.

Lemma END_MARKER_length : length END_MARKER = 26.
Proof. reflexivity. Qed.

Definition LT : ascii := ascii_of_nat 60.

Lemma END_MARKER_head d : nth 0 END_MARKER d = LT.
Proof. reflexivity. Qed.

(** "<" opens the start marker and occurs nowhere else in it. *)
Lemma START_MARKER_lt_only_head k d :
  0 < k -> k < length START_MARKER -> nth k START_MARKER d <> LT.
Proof.
  rewrite START_MARKER_length. intros H0 Hk.
  do 28 (destruct k as [|k]; [try lia; vm_compute; discriminate|]). lia.
Qed.

Lemma END_MARKER_no_NL k d : k < length END_MARKER -> nth k END_MARKER d <> NL.
Proof.
  rewrite END_MARKER_length. intros Hk.
  do 26 (destruct k as [|k]; [vm_compute; discriminate|]). lia.
Qed.

(** The first end marker after a start marker does not overlap it. *)
Lemma markers_disjoint T s e :
  occurs_at START_MARKER T s -> occurs_at END_MARKER T e -> s < e ->
  s + length START_MARKER <= e.
Proof.
  intros Hs He Hlt. destruct (Nat.le_gt_cases (s + length START_MARKER) e) as [|Hov]; [assumption|].
  exfalso.
  pose proof (occurs_at_nth _ _ _ (e - s) LT Hs ltac:(lia)) as H1.
  pose proof (occurs_at_nth _ _ _ 0 LT He ltac:(rewrite END_MARKER_length; lia)) as H2.
  replace (s + (e - s)) with e in H1 by lia. rewrite Nat.add_0_r, END_MARKER_head in H2.
  apply (START_MARKER_lt_only_head (e - s) LT); [lia | lia | congruence].
Qed.

Lemma occurs_at_length pat s j :
  pat <> [] -> occurs_at pat s j -> j + length pat <= length s.
Proof.
  unfold occurs_at. intros Hne H. apply (f_equal (@length _)) in H.
  rewrite length_firstn, length_skipn in H.
  destruct pat as [|c pat]; [congruence|]. cbn [length] in *.
  destruct (Nat.min_spec (S (length pat)) (length s - j)) as [[H1 H2]|[H1 H2]]; lia.
Qed.

Lemma occurs_at_split pat s j :
  occurs_at pat s j -> s = firstn j s ++ pat ++ skipn (j + length pat) s.
Proof.
  intros H. unfold occurs_at in H.
  rewrite <- (firstn_skipn j s) at 1. f_equal.
  rewrite <- (firstn_skipn (length pat) (skipn j s)) at 1.
  rewrite H, skipn_skipn. replace (length pat + j) with (j + length pat) by lia.
  reflexivity.
Qed.

(** ** Universal newlines *)

Lemma universal_newlines_no_CR b : ~ In CR (universal_newlines b).
Proof.
  remember (length b) as n eqn:Hn. assert (Hle : length b <= n) by lia. clear Hn.
  revert b Hle. induction n as [|n IH]; intros [|c r] Hle;
    cbn [universal_newlines length] in *; try (intros []); try lia.
  destruct (Ascii.eqb c CR) eqn:Ec.
  - destruct r as [|d r'].
    + intros [H|H]; [discriminate H | exact H].
    + cbn [length] in Hle. destruct (Ascii.eqb d NL); intros [H|H]; try discriminate H.
      * apply (IH r'); [lia | exact H].
      * apply (IH (d :: r')); [cbn [length]; lia | exact H].
  - intros [H|H].
    + subst. rewrite Ascii.eqb_refl in Ec. discriminate.
    + apply (IH r); [lia | exact H].
Qed.

Lemma universal_newlines_id b : ~ In CR b -> universal_newlines b = b.
Proof.
  induction b as [|c r IH]; intros H; cbn [universal_newlines]; [reflexivity|].
  destruct (Ascii.eqb c CR) eqn:Ec.
  - apply Ascii.eqb_eq in Ec. subst. exfalso. apply H. left. reflexivity.
  - rewrite IH; [reflexivity|]. intros Hr. apply H. right. exact Hr.
Qed.

(** ** The patcher *)

(** The text [update_readme] builds from the text it read. *)
Definition spliced (T section_content : text) (s e : nat) : text :=
  firstn (s + length START_MARKER) T ++ [NL] ++ section_content ++ skipn e T.

Lemma update_readme_missing sec w :
  find START_MARKER (universal_newlines (file w)) = None \/
  find END_MARKER (universal_newlines (file w)) = None ->
  update_readme sec w = (inl (Exit 1), mkWorld (file w) (trace w ++ [ERead; EErr MMarkerError])).
Proof.
  intros H. unfold update_readme, pbind, read_text. cbn [file trace].
  destruct H as [H|H]; rewrite H;
    [| destruct (find START_MARKER (universal_newlines (file w)))];
    cbn; rewrite <- app_assoc; reflexivity.
Qed.

Lemma update_readme_found sec w s e :
  find START_MARKER (universal_newlines (file w)) = Some s ->
  find END_MARKER (universal_newlines (file w)) = Some e ->
  let new := spliced (universal_newlines (file w)) sec s e in
  update_readme sec w =
    (inr tt,
     if text_eqb new (universal_newlines (file w))
     then mkWorld (file w) (trace w ++ [ERead; EOut MNoChanges])
     else mkWorld new (trace w ++ [ERead; EWrite new; EOut MUpdated])).
Proof.
  intros Hs He new. unfold update_readme, pbind, read_text. cbn [file trace].
  rewrite Hs, He. unfold new, spliced.
  destruct (text_eqb (firstn _ _ ++ _) _); cbv [emit write_text pbind]; cbn [file trace];
    rewrite <- ?app_assoc; reflexivity.
Qed.

Lemma occurs_at_skipn pat s j :
  occurs_at pat s j -> skipn j s = pat ++ skipn (j + length pat) s.
Proof.
  intros H. rewrite <- (firstn_skipn (length pat) (skipn j s)) at 1.
  unfold occurs_at in H. rewrite H, skipn_skipn.
  replace (length pat + j) with (j + length pat) by lia. reflexivity.
Qed.

Lemma occurs_at_firstn pat s j :
  pat <> [] -> occurs_at pat s j -> firstn (j + length pat) s = firstn j s ++ pat.
Proof.
  intros Hne H. pose proof (occurs_at_length _ _ _ Hne H) as Hl.
  rewrite <- (firstn_skipn j s) at 1. rewrite firstn_app, length_firstn.
  rewrite firstn_all2 by (rewrite length_firstn; lia).
  replace (j + length pat - Nat.min j (length s)) with (length pat) by lia.
  unfold occurs_at in H. rewrite H. reflexivity.
Qed.

Lemma START_MARKER_nonempty : START_MARKER <> [].
Proof. discriminate. Qed.

Lemma END_MARKER_nonempty : END_MARKER <> [].
Proof. discriminate. Qed.

(** With the start marker first, the text read is the part up to and
    including the start marker, the old region, and the part from the end
    marker on. *)
Lemma read_text_parts T s e :
  find START_MARKER T = Some s -> find END_MARKER T = Some e -> s < e ->
  (exists mid, T = firstn (s + length START_MARKER) T ++ mid ++ skipn e T) /\
  (exists pre, firstn (s + length START_MARKER) T = pre ++ START_MARKER) /\
  (exists post, skipn e T = END_MARKER ++ post).
Proof.
  intros Hs He Hlt.
  destruct (find_Some _ _ _ Hs) as [Os _]. destruct (find_Some _ _ _ He) as [Oe _].
  pose proof (markers_disjoint _ _ _ Os Oe Hlt) as Hd.
  split; [|split].
  - exists (firstn (e - (s + length START_MARKER)) (skipn (s + length START_MARKER) T)).
    rewrite <- (firstn_skipn (s + length START_MARKER) T) at 1. f_equal.
    rewrite <- (firstn_skipn (e - (s + length START_MARKER)) (skipn (s + length START_MARKER) T)) at 1.
    f_equal. rewrite skipn_skipn. f_equal. lia.
  - exists (firstn s T). apply occurs_at_firstn; [apply START_MARKER_nonempty | exact Os].
  - exists (skipn (e + length END_MARKER) T). apply occurs_at_skipn. exact Oe.
Qed.

(** C1 (counterexample): README.md is read with universal newlines, so a
    "\r\n" before the start marker is written back as "\n": a byte outside
    the markers changes. *)
Lemma C1_crlf_outside_markers_changed :
  update_readme (t "S") (mkWorld ([CR; NL] ++ START_MARKER ++ [NL] ++ END_MARKER) []) =
    (inr tt,
     mkWorld ([NL] ++ START_MARKER ++ [NL] ++ t "S" ++ END_MARKER)
       [ERead; EWrite ([NL] ++ START_MARKER ++ [NL] ++ t "S" ++ END_MARKER); EOut MUpdated]) /\
  firstn 2 ([NL] ++ START_MARKER ++ [NL] ++ t "S" ++ END_MARKER) <> [CR; NL].
Proof. split; [vm_compute; reflexivity | discriminate]. Qed.

(** C1 (amended): let T be the text read from README.md (universal
    newlines: "\r\n" and "\r" read as "\n").  When T has the first start
    marker before the first end marker, T is P ++ old ++ Q with P the text
    up to and including the start marker and Q the text from the end
    marker on; the patcher builds P ++ "\n" ++ fragment ++ Q and writes it
    unless it equals T, in which case the file is left alone.  A file
    without "\r" is T itself, so outside the region between the markers
    its bytes are kept. *)
Theorem C1_splice_keeps_outside_text sec w s e :
  let T := universal_newlines (file w) in
  find START_MARKER T = Some s -> find END_MARKER T = Some e -> s < e ->
  let P := firstn (s + length START_MARKER) T in
  let Q := skipn e T in
  let new := P ++ [NL] ++ sec ++ Q in
  (exists old, T = P ++ old ++ Q) /\
  (exists pre, P = pre ++ START_MARKER) /\
  (exists post, Q = END_MARKER ++ post) /\
  update_readme sec w =
    (inr tt,
     if text_eqb new T then mkWorld (file w) (trace w ++ [ERead; EOut MNoChanges])
     else mkWorld new (trace w ++ [ERead; EWrite new; EOut MUpdated])) /\
  (~ In CR (file w) -> T = file w).
Proof.
  intros T Hs He Hlt P Q new.
  destruct (read_text_parts T s e Hs He Hlt) as [H1 [H2 H3]].
  split; [exact H1|]. split; [exact H2|]. split; [exact H3|]. split.
  - exact (update_readme_found sec w s e Hs He).
  - apply universal_newlines_id.
Qed.

Lemma C1_witness :
  let w := mkWorld (t "x" ++ START_MARKER ++ t "old" ++ END_MARKER ++ t "y") [] in
  let T := universal_newlines (file w) in
  find START_MARKER T = Some 1 /\ find END_MARKER T = Some 32 /\ 1 < 32 /\
  update_readme (t "S") w =
    (inr tt,
     if text_eqb (firstn (1 + length START_MARKER) T ++ [NL] ++ t "S" ++ skipn 32 T) T
     then mkWorld (file w) (trace w ++ [ERead; EOut MNoChanges])
     else mkWorld (firstn (1 + length START_MARKER) T ++ [NL] ++ t "S" ++ skipn 32 T)
            (trace w ++ [ERead; EWrite (firstn (1 + length START_MARKER) T ++ [NL] ++ t "S" ++ skipn 32 T);
                         EOut MUpdated])).
Proof.
  intros w T.
  assert (Hs : find START_MARKER T = Some 1) by (vm_compute; reflexivity).
  assert (He : find END_MARKER T = Some 32) by (vm_compute; reflexivity).
  split; [exact Hs|]. split; [exact He|]. split; [lia|].
  exact (proj1 (proj2 (proj2 (proj2 (C1_splice_keeps_outside_text (t "S") w 1 32 Hs He ltac:(lia)))))).
Defined.

(** C2 (amended): once the fragment is rendered, a README.md without one
    of the markers ends the run with the error message and exit status 1,
    the file untouched.  Both markers present, in either order, the
    patcher does not abort: the run ends with status 0 after writing the
    spliced text (unless it equals the text read). *)
Theorem C2_missing_marker_exit_1 cs resp w data g sec :
  fetch_badges resp = Ok data ->
  group_badges data = Ok g ->
  render_section cs g = Ok sec ->
  let T := universal_newlines (file w) in
  ((find START_MARKER T = None \/ find END_MARKER T = None) ->
   run_main cs resp w = (Exit 1, mkWorld (file w) (trace w ++ [ERead; EErr MMarkerError]))) /\
  (forall s e, find START_MARKER T = Some s -> find END_MARKER T = Some e ->
   run_main cs resp w =
     (Exit 0,
      if text_eqb (spliced T sec s e) T
      then mkWorld (file w) (trace w ++ [ERead; EOut MNoChanges])
      else mkWorld (spliced T sec s e) (trace w ++ [ERead; EWrite (spliced T sec s e); EOut MUpdated]))).
Proof.
  intros Hf Hg Hr T. rewrite (run_main_patch cs resp w data g sec Hf Hg Hr). split.
  - intros Hm. rewrite (update_readme_missing sec w Hm). reflexivity.
  - intros s e Hs He. rewrite (update_readme_found sec w s e Hs He). reflexivity.
Qed.

Definition empty_feed : response := RBody (Some (JObj [(t "data", JArr [])])).

Lemma C2_witness :
  let w := mkWorld (t "no markers here") [] in
  fetch_badges empty_feed = Ok (JArr []) /\
  group_badges (JArr []) = Ok [] /\
  render_section (fun _ => []) [] = Ok (HEADING ++ [NL]) /\
  run_main (fun _ => []) empty_feed w = (Exit 1, mkWorld (file w) (trace w ++ [ERead; EErr MMarkerError])).
Proof.
  intros w.
  assert (Hf : fetch_badges empty_feed = Ok (JArr [])) by reflexivity.
  assert (Hg : group_badges (JArr []) = Ok []) by reflexivity.
  assert (Hr : render_section (fun _ => []) [] = Ok (HEADING ++ [NL])) by reflexivity.
  split; [exact Hf|]. split; [exact Hg|]. split; [exact Hr|].
  apply (proj1 (C2_missing_marker_exit_1 (fun _ => []) empty_feed w (JArr []) [] _ Hf Hg Hr)).
  left. vm_compute. reflexivity.
Defined.

(** ** Python string order *)

Lemma nat_of_ascii_inj x y : nat_of_ascii x = nat_of_ascii y -> x = y.
Proof.
  intros H. rewrite <- (ascii_nat_embedding x), <- (ascii_nat_embedding y), H. reflexivity.
Qed.

Lemma text_ltb_irrefl a : text_ltb a a = false.
Proof. induction a as [|c a IH]; cbn [text_ltb]; [reflexivity|]. rewrite Nat.ltb_irrefl, Ascii.eqb_refl. exact IH. Qed.

Lemma text_ltb_trans a b c : text_ltb a b = true -> text_ltb b c = true -> text_ltb a c = true.
Proof.
  revert b c. induction a as [|x a IH]; intros [|y b] [|z c]; cbn [text_ltb]; try congruence.
  destruct (Nat.ltb_spec (nat_of_ascii x) (nat_of_ascii y)) as [Hxy|Hxy];
  destruct (Nat.ltb_spec (nat_of_ascii y) (nat_of_ascii z)) as [Hyz|Hyz];
  destruct (Nat.ltb_spec (nat_of_ascii x) (nat_of_ascii z)) as [Hxz|Hxz];
  destruct (Ascii.eqb_spec x y) as [Exy|Exy];
  destruct (Ascii.eqb_spec y z) as [Eyz|Eyz];
  destruct (Ascii.eqb_spec x z) as [Exz|Exz];
  subst; try congruence; try lia; eauto.
Qed.

Lemma text_ltb_total a b : a <> b -> text_ltb a b = true \/ text_ltb b a = true.
Proof.
  revert b. induction a as [|x a IH]; intros [|y b] Hne; cbn [text_ltb]; auto; try congruence.
  destruct (Nat.ltb_spec (nat_of_ascii x) (nat_of_ascii y)); auto.
  destruct (Nat.ltb_spec (nat_of_ascii y) (nat_of_ascii x)); auto.
  assert (x = y) by (apply nat_of_ascii_inj; lia). subst.
  rewrite Ascii.eqb_refl. apply IH. congruence.
Qed.

Lemma text_ltb_asym a b : text_ltb a b = true -> text_ltb b a = false.
Proof.
  intros H. destruct (text_ltb b a) eqn:E; [|reflexivity].
  pose proof (text_ltb_trans _ _ _ H E). rewrite text_ltb_irrefl in *. discriminate.
Qed.

Lemma filter_none {A} (f : A -> bool) l :
  (forall z, In z l -> f z = false) -> filter f l = [].
Proof.
  induction l as [|x r IH]; intros H; cbn; [reflexivity|].
  rewrite (H x (or_introl eq_refl)). apply IH. intros z Hz. apply H. right. exact Hz.
Qed.

(** ** The sort, on keys that are all strings *)

Section StringSort.
Variable A : Type.
Variable skey : A -> text.

Fixpoint ins_s (x : A) (l : list A) : list A :=
  match l with
  | [] => [x]
  | y :: r => if text_ltb (skey x) (skey y) then x :: y :: r else y :: ins_s x r
  end.

Fixpoint isort_s (acc l : list A) : list A :=
  match l with
  | [] => acc
  | x :: r => isort_s (ins_s x acc) r
  end.

(** [a] may come before [b]: not [b < a]. *)
Definition le_key (a b : A) : Prop := text_ltb (skey b) (skey a) = false.

Lemma le_key_trans : Relations_1.Transitive le_key.
Proof.
  unfold le_key. intros a b c H1 H2.
  destruct (text_ltb (skey c) (skey a)) eqn:E; [|reflexivity].
  destruct (list_eq_dec ascii_dec (skey c) (skey b)) as [Ecb|Ncb].
  - rewrite Ecb in E. congruence.
  - destruct (text_ltb_total _ _ Ncb) as [Hcb|Hbc]; [congruence|].
    rewrite (text_ltb_trans _ _ _ Hbc E) in H1. discriminate.
Qed.

Lemma ins_s_perm x l : Permutation (ins_s x l) (x :: l).
Proof.
  induction l as [|y r IH]; cbn; [reflexivity|].
  destruct (text_ltb (skey x) (skey y)); [reflexivity|].
  rewrite IH. apply perm_swap.
Qed.

Lemma isort_s_perm acc l : Permutation (isort_s acc l) (acc ++ l).
Proof.
  revert acc. induction l as [|x r IH]; intros acc; cbn; [rewrite app_nil_r; reflexivity|].
  rewrite IH, ins_s_perm. apply Permutation_middle.
Qed.

Lemma ins_s_sorted x l : Sorted le_key l -> Sorted le_key (ins_s x l).
Proof.
  induction 1 as [|y r Hr IH Hhd]; cbn; [repeat constructor|].
  destruct (text_ltb (skey x) (skey y)) eqn:E.
  - constructor; [constructor; assumption|]. constructor. apply text_ltb_asym. exact E.
  - constructor; [exact IH|].
    destruct r as [|z r']; cbn; [constructor; exact E|].
    destruct (text_ltb (skey x) (skey z)); constructor; [exact E|]. inversion Hhd; assumption.
Qed.

Lemma isort_s_sorted acc l : Sorted le_key acc -> Sorted le_key (isort_s acc l).
Proof.
  revert acc. induction l as [|x r IH]; intros acc H; cbn; [exact H|].
  apply IH, ins_s_sorted, H.
Qed.

Definition key_is (d : text) (a : A) : bool := text_eqb (skey a) d.

(** Inserting puts [x] after every element with its key. *)
Lemma ins_s_filter d x l :
  StronglySorted le_key l ->
  filter (key_is d) (ins_s x l) = filter (key_is d) l ++ filter (key_is d) [x].
Proof.
  induction 1 as [|y r Hr IH Hall]; cbn; [reflexivity|].
  destruct (text_ltb (skey x) (skey y)) eqn:E.
  - cbn. destruct (key_is d x) eqn:Kx.
    + assert (Hnone : filter (key_is d) (y :: r) = []).
      { apply filter_none. intros z Hz. unfold key_is in *.
        apply text_eqb_true in Kx. destruct (text_eqb (skey z) d) eqn:Kz; [|reflexivity].
        apply text_eqb_true in Kz. exfalso.
        assert (Hxz : text_ltb (skey x) (skey z) = true).
        { destruct Hz as [<-|Hz]; [exact E|].
          pose proof (proj1 (Forall_forall _ _) Hall z Hz) as Hyz. unfold le_key in Hyz.
          destruct (list_eq_dec ascii_dec (skey z) (skey y)) as [Ezy|Nzy]; [congruence|].
          destruct (text_ltb_total _ _ Nzy) as [H1|H1]; [congruence|].
          exact (text_ltb_trans _ _ _ E H1). }
        rewrite Kx, <- Kz, text_ltb_irrefl in Hxz. discriminate. }
      cbn in Hnone. rewrite Hnone. reflexivity.
    + rewrite app_nil_r. reflexivity.
  - cbn. rewrite IH. destruct (key_is d y); reflexivity.
Qed.

Lemma isort_s_filter d acc l :
  Sorted le_key acc ->
  filter (key_is d) (isort_s acc l) = filter (key_is d) (acc ++ l).
Proof.
  revert acc. induction l as [|x r IH]; intros acc H; cbn; [rewrite app_nil_r; reflexivity|].
  rewrite IH by (apply ins_s_sorted, H).
  rewrite filter_app, ins_s_filter by (apply Sorted_StronglySorted; [exact le_key_trans | exact H]).
  rewrite !filter_app. cbn. rewrite <- app_assoc. destruct (key_is d x); reflexivity.
Qed.

End StringSort.

Arguments ins_s {A} skey x l.
Arguments isort_s {A} skey acc l.
Arguments le_key {A} skey a b.
Arguments key_is {A} skey d a.

(** ** The model's sort *)

Section SortFacts.
Variable A : Type.
Variable key : A -> json.

Lemma ins_perm x l r : ins key x l = Ok r -> Permutation r (x :: l).
Proof.
  revert r. induction l as [|y l IH]; intros r H; cbn in H.
  - inversion H. reflexivity.
  - destruct (py_lt (key x) (key y)) as [c|e]; cbn in H; [|discriminate].
    destruct c.
    + inversion H. reflexivity.
    + destruct (ins key x l) as [r'|e] eqn:E; cbn in H; [|discriminate].
      inversion H; subst. rewrite (IH r' eq_refl). apply perm_swap.
Qed.

Lemma isort_acc_perm acc l r : isort_acc key acc l = Ok r -> Permutation r (acc ++ l).
Proof.
  revert acc. induction l as [|x l IH]; intros acc H; cbn in H.
  - inversion H. rewrite app_nil_r. reflexivity.
  - destruct (ins key x acc) as [acc'|e] eqn:E; cbn in H; [|discriminate].
    rewrite (IH acc' H), (ins_perm x acc acc' E). apply Permutation_middle.
Qed.

Lemma sort_by_perm l r : sort_by key l = Ok r -> Permutation r l.
Proof. apply isort_acc_perm. Qed.

Lemma sort_by_desc_perm l r : sort_by_desc key l = Ok r -> Permutation r l.
Proof.
  unfold sort_by_desc. destruct (sort_by key (rev l)) as [s|e] eqn:E; cbn; [|discriminate].
  intros H. inversion H; subst. rewrite <- Permutation_rev, (sort_by_perm _ _ E).
  symmetry. apply Permutation_rev.
Qed.

Variable skey : A -> text.

Lemma ins_str x l :
  (forall a, In a (x :: l) -> key a = JStr (skey a)) -> ins key x l = Ok (ins_s skey x l).
Proof.
  induction l as [|y l IH]; intros H; cbn; [reflexivity|].
  rewrite (H x (or_introl eq_refl)), (H y (or_intror (or_introl eq_refl))). cbn.
  destruct (text_ltb (skey x) (skey y)); [reflexivity|].
  rewrite IH; [reflexivity|]. intros a [Ha|Ha]; apply H; cbn; tauto.
Qed.

Lemma isort_str acc l :
  (forall a, In a (acc ++ l) -> key a = JStr (skey a)) ->
  isort_acc key acc l = Ok (isort_s skey acc l).
Proof.
  revert acc. induction l as [|x l IH]; intros acc H; cbn; [reflexivity|].
  rewrite ins_str.
  - cbn. apply IH. intros a Ha. apply in_app_or in Ha. apply H.
    destruct Ha as [Ha|Ha].
    + apply (Permutation_in _ (ins_s_perm _ skey x acc)) in Ha.
      destruct Ha as [<-|Ha]; apply in_or_app; cbn; tauto.
    + apply in_or_app. cbn. tauto.
  - intros a [<-|Ha]; apply H; apply in_or_app; cbn; tauto.
Qed.

End SortFacts.

Arguments ins_perm {A} key x l r.
Arguments isort_acc_perm {A} key acc l r.
Arguments sort_by_perm {A} key l r.
Arguments sort_by_desc_perm {A} key l r.
Arguments ins_str {A} key skey x l.
Arguments isort_str {A} key skey acc l.

Lemma map_result_length {A B} (f : A -> result B) l r :
  map_result f l = Ok r -> length r = length l.
Proof.
  revert r. induction l as [|x l IH]; intros r H; cbn in H; [inversion H; reflexivity|].
  destruct (f x) eqn:Ef; cbn in H; [|discriminate].
  destruct (map_result f l) eqn:Em; cbn in H; [|discriminate].
  inversion H; subst. cbn. rewrite (IH _ eq_refl). reflexivity.
Qed.

Lemma map_snd_combine {A B} (ks : list A) (l : list B) :
  length ks = length l -> map snd (combine ks l) = l.
Proof.
  revert l. induction ks as [|k ks IH]; intros [|x l] H; cbn in *; try lia; [reflexivity|].
  rewrite IH by lia. reflexivity.
Qed.

Lemma sort_group_perm l r : sort_group l = Ok r -> Permutation r l.
Proof.
  unfold sort_group. destruct (map_result date_key l) as [ks|e] eqn:Ek; cbn; [|discriminate].
  destruct (sort_by_desc fst (combine ks l)) as [s|e] eqn:Es; cbn; [|discriminate].
  intros H. inversion H; subst.
  rewrite (Permutation_map snd (sort_by_desc_perm fst _ _ Es)).
  rewrite map_snd_combine by exact (map_result_length _ _ _ Ek). reflexivity.
Qed.

(** ** Dict keys *)

Lemma text_eqb_refl a : text_eqb a a = true.
Proof. apply text_eqb_true. reflexivity. Qed.

Lemma text_eqb_sym a b : text_eqb a b = text_eqb b a.
Proof.
  destruct (text_eqb a b) eqn:E.
  - apply text_eqb_true in E. subst. symmetry. apply text_eqb_refl.
  - apply text_eqb_false in E. symmetry. apply text_eqb_false. congruence.
Qed.

Lemma py_key_eqb_sym a b : py_key_eqb a b = py_key_eqb b a.
Proof.
  destruct a as [| [] | x | x | x | x], b as [| [] | y | y | y | y];
    cbn [py_key_eqb num_of]; try reflexivity; try apply text_eqb_sym; apply Z.eqb_sym.
Qed.

Lemma py_key_eqb_trans a b c :
  py_key_eqb a b = true -> py_key_eqb b c = true -> py_key_eqb a c = true.
Proof.
  destruct a as [| [] | x | x | x | x], b as [| [] | y | y | y | y],
    c as [| [] | z | z | z | z]; cbn [py_key_eqb num_of]; try congruence;
    rewrite ?text_eqb_true, ?Z.eqb_eq; intros; subst; congruence.
Qed.

Lemma py_key_eqb_refl a : hashable a = true -> py_key_eqb a a = true.
Proof.
  destruct a as [| [] | x | x | x | x]; cbn; try discriminate; intros _;
    auto using text_eqb_refl, Z.eqb_refl.
Qed.

Lemma py_key_eqb_JStr s k : py_key_eqb (JStr s) k = true -> k = JStr s.
Proof.
  destruct k as [| [] | y | y | y | y]; cbn; try discriminate.
  rewrite text_eqb_true. congruence.
Qed.

(** ** Grouping invariants *)

(** Badge [b] has an issuer name equal to [k] as a dict key. *)
Definition issuer_is (k b : json) : bool :=
  match issuer_name b with Ok k' => py_key_eqb k k' | Raise _ => false end.

Lemma issuer_is_same k k' b :
  issuer_is k b = true -> issuer_is k' b = true -> py_key_eqb k k' = true.
Proof.
  unfold issuer_is. destruct (issuer_name b) as [v|]; [|discriminate]. intros H1 H2.
  rewrite py_key_eqb_sym in H2. exact (py_key_eqb_trans _ _ _ H1 H2).
Qed.

Lemma issuer_is_congr k k' b :
  py_key_eqb k k' = true -> issuer_is k b = issuer_is k' b.
Proof.
  unfold issuer_is. destruct (issuer_name b) as [v|]; [|reflexivity]. intros H.
  destruct (py_key_eqb k' v) eqn:E.
  - exact (py_key_eqb_trans _ _ _ H E).
  - destruct (py_key_eqb k v) eqn:E'; [|reflexivity].
    rewrite py_key_eqb_sym in H. rewrite (py_key_eqb_trans _ _ _ H E') in E. discriminate.
Qed.

Fixpoint distinct_keys (ks : list json) : Prop :=
  match ks with
  | [] => True
  | k :: r => (forall k', In k' r -> py_key_eqb k k' = false) /\ distinct_keys r
  end.

Lemma distinct_keys_snoc ks k :
  distinct_keys ks -> (forall k', In k' ks -> py_key_eqb k' k = false) ->
  distinct_keys (ks ++ [k]).
Proof.
  induction ks as [|k1 ks IH]; intros Hd Hk; cbn in *; [tauto|].
  destruct Hd as [Hd1 Hd2]. split.
  - intros k' Hin. apply in_app_or in Hin. destruct Hin as [Hin|[<-|[]]].
    + exact (Hd1 _ Hin).
    + apply Hk. tauto.
  - apply IH; [exact Hd2|]. intros k' Hin. apply Hk. tauto.
Qed.

Lemma setdefault_perm k b gs :
  Permutation (concat (map snd (setdefault_append k b gs))) (concat (map snd gs) ++ [b]).
Proof.
  induction gs as [|[k' l] r IH]; cbn; [reflexivity|].
  destruct (py_key_eqb k' k); cbn.
  - rewrite <- !app_assoc. apply Permutation_app_head. apply Permutation_app_comm.
  - rewrite <- app_assoc. apply Permutation_app_head. exact IH.
Qed.

Lemma accumulate_perm gs bs gs' :
  accumulate gs bs = Ok gs' ->
  Permutation (concat (map snd gs')) (concat (map snd gs) ++ bs).
Proof.
  revert gs. induction bs as [|b r IH]; intros gs H; cbn in H.
  - inversion H. rewrite app_nil_r. reflexivity.
  - destruct (issuer_name b) as [k|e]; cbn in H; [|discriminate].
    destruct (hashable k); [|discriminate].
    rewrite (IH _ H), setdefault_perm, <- app_assoc. reflexivity.
Qed.

Lemma accumulate_issuers gs bs gs' :
  accumulate gs bs = Ok gs' ->
  forall b, In b bs -> exists k, issuer_name b = Ok k /\ hashable k = true.
Proof.
  revert gs. induction bs as [|b r IH]; intros gs H b' Hin; cbn in H; [destruct Hin|].
  destruct (issuer_name b) as [k|e] eqn:Ek; cbn in H; [|discriminate].
  destruct (hashable k) eqn:Eh; [|discriminate].
  destruct Hin as [<-|Hin]; [eauto|exact (IH _ H _ Hin)].
Qed.

Lemma keys_setdefault k b gs :
  map fst (setdefault_append k b gs) =
  if existsb (fun k' => py_key_eqb k' k) (map fst gs) then map fst gs
  else map fst gs ++ [k].
Proof.
  induction gs as [|[k' l] r IH]; cbn; [reflexivity|].
  destruct (py_key_eqb k' k); cbn; [reflexivity|].
  rewrite IH. destruct (existsb _ _); reflexivity.
Qed.

Lemma In_setdefault k0 b gs k l :
  distinct_keys (map fst gs) ->
  In (k, l) (setdefault_append k0 b gs) ->
  (exists l0, In (k, l0) gs /\ py_key_eqb k k0 = true /\ l = l0 ++ [b]) \/
  (In (k, l) gs /\ py_key_eqb k k0 = false) \/
  (k = k0 /\ l = [b] /\ forall k', In k' (map fst gs) -> py_key_eqb k' k0 = false).
Proof.
  induction gs as [|[k' l'] r IH]; cbn; intros Hd Hin.
  - destruct Hin as [Hin|[]]. inversion Hin; subst. right. right. tauto.
  - destruct Hd as [Hd1 Hd2]. destruct (py_key_eqb k' k0) eqn:E.
    + destruct Hin as [Hin|Hin].
      * inversion Hin; subst. left. eauto.
      * right. left. split; [tauto|].
        destruct (py_key_eqb k k0) eqn:E'; [|reflexivity].
        assert (Hk : py_key_eqb k' k = true).
        { rewrite py_key_eqb_sym in E'. exact (py_key_eqb_trans _ _ _ E E'). }
        rewrite (Hd1 k) in Hk; [discriminate|]. apply in_map_iff. exists (k, l). tauto.
    + destruct Hin as [Hin|Hin].
      * inversion Hin; subst. right. left. tauto.
      * destruct (IH Hd2 Hin) as [[l0 H]|[H|[H1 [H2 H3]]]].
        -- left. exists l0. tauto.
        -- right. left. tauto.
        -- right. right. split; [exact H1|]. split; [exact H2|].
           intros k1 [<-|Hk1]; [exact E|exact (H3 _ Hk1)].
Qed.

(** What [groups] holds after the loop has seen the badges [pre]. *)
Definition acc_inv (pre : list json) (gs : list group) : Prop :=
  distinct_keys (map fst gs) /\
  (forall k l, In (k, l) gs -> hashable k = true /\ l <> [] /\ l = filter (issuer_is k) pre) /\
  (forall b, In b pre -> exists k, In k (map fst gs) /\ issuer_is k b = true).

Lemma acc_inv_nil : acc_inv [] [].
Proof. split; [exact I|]. split; intros; cbn in *; tauto. Qed.

Lemma filter_snoc {A} (f : A -> bool) l x :
  filter f (l ++ [x]) = filter f l ++ (if f x then [x] else []).
Proof. rewrite filter_app. cbn. destruct (f x); reflexivity. Qed.

Lemma acc_inv_step pre gs b k0 :
  acc_inv pre gs -> issuer_name b = Ok k0 -> hashable k0 = true ->
  acc_inv (pre ++ [b]) (setdefault_append k0 b gs).
Proof.
  intros [Hd [He Hc]] Hb Hh.
  assert (Hib : forall k, issuer_is k b = py_key_eqb k k0).
  { intros k. unfold issuer_is. rewrite Hb. reflexivity. }
  assert (Hsub : forall k, In k (map fst gs) -> In k (map fst (setdefault_append k0 b gs))).
  { intros k Hk. rewrite keys_setdefault. destruct (existsb _ _); [exact Hk|].
    apply in_or_app. tauto. }
  split; [|split].
  - rewrite keys_setdefault. destruct (existsb _ _) eqn:Ex; [exact Hd|].
    apply distinct_keys_snoc; [exact Hd|]. intros k' Hk'.
    destruct (py_key_eqb k' k0) eqn:E; [|reflexivity].
    rewrite <- Ex. symmetry. apply existsb_exists. eauto.
  - intros k l Hin. destruct (In_setdefault _ _ _ _ _ Hd Hin)
      as [[l0 [H1 [H2 H3]]]|[[H1 H2]|[H1 [H2 H3]]]].
    + destruct (He _ _ H1) as [Hk [Hne Hl]]. subst l. rewrite filter_snoc, Hib, H2, <- Hl.
      repeat split; [exact Hk|]. destruct l0; discriminate.
    + destruct (He _ _ H1) as [Hk [Hne Hl]]. rewrite filter_snoc, Hib, H2, app_nil_r.
      tauto.
    + subst k l. rewrite filter_snoc, Hib, py_key_eqb_refl by exact Hh.
      repeat split; [exact Hh|discriminate|].
      rewrite filter_none; [reflexivity|]. intros b' Hb'.
      destruct (issuer_is k0 b') eqn:E; [|reflexivity].
      destruct (Hc _ Hb') as [k' [Hk' Hi]].
      specialize (H3 _ Hk'). rewrite (issuer_is_same _ _ _ Hi E) in H3. discriminate.
  - intros b' Hb'. apply in_app_or in Hb'. destruct Hb' as [Hb'|[<-|[]]].
    + destruct (Hc _ Hb') as [k [Hk Hi]]. eauto.
    + destruct (existsb (fun k' => py_key_eqb k' k0) (map fst gs)) eqn:Ex.
      * apply existsb_exists in Ex. destruct Ex as [k [Hk Hkk]].
        exists k. rewrite Hib. eauto.
      * exists k0. rewrite Hib, py_key_eqb_refl by exact Hh. split; [|reflexivity].
        rewrite keys_setdefault, Ex. apply in_or_app. cbn. tauto.
Qed.

Lemma accumulate_inv pre gs bs gs' :
  accumulate gs bs = Ok gs' -> acc_inv pre gs -> acc_inv (pre ++ bs) gs'.
Proof.
  revert pre gs. induction bs as [|b r IH]; intros pre gs H Hi; cbn in H.
  - inversion H; subst. rewrite app_nil_r. exact Hi.
  - destruct (issuer_name b) as [k|e] eqn:Ek; cbn in H; [|discriminate].
    destruct (hashable k) eqn:Eh; [|discriminate].
    replace (pre ++ b :: r) with ((pre ++ [b]) ++ r) by (rewrite <- app_assoc; reflexivity).
    apply (IH _ _ H). exact (acc_inv_step _ _ _ _ Hi Ek Eh).
Qed.

(** ** Sorting the groups, popping the priority issuers *)

Lemma sort_groups_spec gs gs2 :
  sort_groups gs = Ok gs2 ->
  Forall2 (fun p q => fst q = fst p /\ sort_group (snd p) = Ok (snd q)) gs gs2.
Proof.
  unfold sort_groups. revert gs2.
  induction gs as [|[k l] r IH]; intros gs2 H; cbn in H; [inversion H; constructor|].
  destruct (sort_group l) as [l'|e] eqn:El; cbn in H; [|discriminate].
  match type of H with context [map_result ?f r] =>
    destruct (map_result f r) as [r'|e] eqn:Er end; cbn in H; [|discriminate].
  inversion H; subst. constructor; [cbn; tauto|]. apply IH. reflexivity.
Qed.

Lemma sort_groups_keys gs gs2 : sort_groups gs = Ok gs2 -> map fst gs2 = map fst gs.
Proof.
  intros H. apply sort_groups_spec in H. induction H as [|p q l1 l2 [Hk _] _ IH]; cbn;
    [reflexivity|]. rewrite Hk, IH. reflexivity.
Qed.

Lemma sort_groups_perm gs gs2 :
  sort_groups gs = Ok gs2 -> Permutation (concat (map snd gs2)) (concat (map snd gs)).
Proof.
  intros H. apply sort_groups_spec in H. induction H as [|p q l1 l2 [_ Hs] _ IH]; cbn;
    [reflexivity|]. rewrite (sort_group_perm _ _ Hs), IH. reflexivity.
Qed.

Lemma sort_groups_In gs gs2 k l2 :
  sort_groups gs = Ok gs2 -> In (k, l2) gs2 -> exists l, In (k, l) gs /\ sort_group l = Ok l2.
Proof.
  intros H. apply sort_groups_spec in H. induction H as [|[k1 l1] [k2 l2'] r1 r2 [Hk Hs] _ IH];
    cbn in *; [tauto|].
  intros [Hin|Hin].
  - inversion Hin; subst. exists l1. tauto.
  - destruct (IH Hin) as [l [Hl Hs']]. exists l. tauto.
Qed.

Definition key_in (k : json) (gs : list group) : bool :=
  existsb (fun p => py_key_eqb k (fst p)) gs.

Lemma pop_None k gs : pop k gs = None -> forall p, In p gs -> py_key_eqb k (fst p) = false.
Proof.
  induction gs as [|[k' l] r IH]; cbn; intros H p Hp; [destruct Hp|].
  destruct (py_key_eqb k k') eqn:E; [discriminate|].
  destruct (pop k r) as [[]|]; [discriminate|].
  destruct Hp as [<-|Hp]; [exact E|exact (IH eq_refl _ Hp)].
Qed.

Lemma pop_Some k gs l gs' :
  pop k gs = Some (l, gs') ->
  exists g1 k' g2, gs = g1 ++ (k', l) :: g2 /\ gs' = g1 ++ g2 /\ py_key_eqb k k' = true.
Proof.
  revert gs'. induction gs as [|[k' l'] r IH]; cbn; intros gs' H; [discriminate|].
  destruct (py_key_eqb k k') eqn:E.
  - inversion H; subst. exists [], k', gs'. cbn. tauto.
  - destruct (pop k r) as [[l2 r2]|] eqn:Ep; [|discriminate]. inversion H; subst.
    destruct (IH _ eq_refl) as [g1 [k2 [g2 [-> [-> Hk]]]]].
    exists ((k', l') :: g1), k2, g2. cbn. tauto.
Qed.

Lemma distinct_keys_remove g1 k g2 :
  distinct_keys (g1 ++ k :: g2) ->
  distinct_keys (g1 ++ g2) /\ forall k', In k' g2 -> py_key_eqb k k' = false.
Proof.
  induction g1 as [|k1 g1 IH]; cbn; intros [H1 H2]; [tauto|].
  destruct (IH H2) as [IH1 IH2]. repeat split; [|exact IH1|exact IH2].
  intros k' Hk'. apply H1. apply in_app_or in Hk'. apply in_or_app. cbn. tauto.
Qed.

Lemma pop_Some_rest k gs l gs' :
  distinct_keys (map fst gs) -> pop k gs = Some (l, gs') ->
  distinct_keys (map fst gs') /\ forall p, In p gs' -> py_key_eqb k (fst p) = false.
Proof.
  revert gs'. induction gs as [|[k' l'] r IH]; cbn; intros gs' Hd Hp; [discriminate|].
  destruct Hd as [Hd1 Hd2]. destruct (py_key_eqb k k') eqn:E.
  - inversion Hp; subst. split; [exact Hd2|]. intros p Hin.
    destruct (py_key_eqb k (fst p)) eqn:E'; [|reflexivity].
    rewrite py_key_eqb_sym in E. pose proof (py_key_eqb_trans _ _ _ E E') as X.
    rewrite (Hd1 (fst p)) in X; [discriminate|]. apply in_map. exact Hin.
  - destruct (pop k r) as [[l2 r2]|] eqn:Ep; [|discriminate]. inversion Hp; subst.
    destruct (IH _ Hd2 eq_refl) as [IH1 IH2].
    destruct (pop_Some _ _ _ _ Ep) as [g1 [k2 [g2 [-> [-> _]]]]].
    cbn. repeat split; [|exact IH1|].
    + intros k3 Hk3. apply Hd1. rewrite map_app in *. apply in_app_or in Hk3.
      apply in_or_app. cbn. tauto.
    + intros p [<-|Hin]; [exact E|exact (IH2 _ Hin)].
Qed.

Lemma pop_known_spec names gs known rest :
  NoDup names -> distinct_keys (map fst gs) ->
  pop_known names gs = (known, rest) ->
  (exists picked, Permutation gs (picked ++ rest) /\
     Forall2 (fun p q => snd p = snd q /\ py_key_eqb (fst p) (fst q) = true) known picked) /\
  map fst known = map JStr (filter (fun n => key_in (JStr n) gs) names) /\
  (forall n p, In n names -> In p rest -> py_key_eqb (JStr n) (fst p) = false).
Proof.
  revert gs known rest. induction names as [|n ns IH]; intros gs known rest Hnd Hd H; cbn in H.
  - inversion H; subst. split; [exists []; split; [reflexivity|constructor]|].
    cbn. split; [reflexivity|]. intros _ _ [].
  - inversion Hnd as [|n' ns' Hn Hnd']; subst.
    destruct (pop (JStr n) gs) as [[l gs']|] eqn:Ep.
    + destruct (pop_known ns gs') as [known' rest'] eqn:Epk. inversion H; subst.
      destruct (pop_Some_rest _ _ _ _ Hd Ep) as [Hd' Hout].
      destruct (IH _ _ _ Hnd' Hd' Epk) as [[picked [Hperm Hf]] [Hkeys Hrest]].
      destruct (pop_Some _ _ _ _ Ep) as [g1 [k' [g2 [Hgs [Hgs' Hk']]]]].
      split; [|split].
      * exists ((k', l) :: picked). split; [|constructor; cbn; tauto].
        rewrite Hgs, <- Permutation_middle. cbn. constructor. rewrite <- Hgs'. exact Hperm.
      * cbn. rewrite Hkeys.
        assert (Hin : key_in (JStr n) gs = true).
        { unfold key_in. apply existsb_exists. exists (k', l). rewrite Hgs.
          split; [apply in_or_app; cbn; tauto|exact Hk']. }
        rewrite Hin. cbn. f_equal. f_equal. apply filter_ext_in. intros n2 Hn2.
        unfold key_in. rewrite Hgs, Hgs', !existsb_app. cbn [existsb fst].
        destruct (py_key_eqb (JStr n2) k') eqn:E; [|reflexivity].
        apply py_key_eqb_JStr in E. apply py_key_eqb_JStr in Hk'. congruence.
      * intros n2 p [<-|Hn2] Hp.
        -- apply Hout. apply (Permutation_in _ (Permutation_sym Hperm)).
           apply in_or_app. tauto.
        -- exact (Hrest _ _ Hn2 Hp).
    + destruct (IH _ _ _ Hnd' Hd H) as [Hp [Hkeys Hrest]].
      split; [exact Hp|split].
      * cbn. unfold key_in at 1.
        replace (existsb _ gs) with false; [exact Hkeys|].
        symmetry. apply Bool.not_true_iff_false. intros Hx.
        apply existsb_exists in Hx. destruct Hx as [p [Hp1 Hp2]].
        rewrite (pop_None _ _ Ep _ Hp1) in Hp2. discriminate.
      * intros n2 p [<-|Hn2] Hq.
        -- apply (pop_None _ _ Ep). destruct Hp as [picked [Hperm _]].
           apply (Permutation_in _ (Permutation_sym Hperm)). apply in_or_app. tauto.
        -- exact (Hrest _ _ Hn2 Hq).
Qed.

(** ** group_badges as a whole *)

Lemma NoDup_ISSUER_ORDER : NoDup ISSUER_ORDER.
Proof.
  repeat constructor; cbn; intros H; repeat destruct H as [H|H]; try discriminate; exact H.
Qed.

Lemma group_badges_parts bs g :
  group_badges (JArr bs) = Ok g ->
  exists gs gs2 known rest unknown,
    accumulate [] bs = Ok gs /\ sort_groups gs = Ok gs2 /\
    pop_known ISSUER_ORDER gs2 = (known, rest) /\ sort_by fst rest = Ok unknown /\
    g = known ++ unknown.
Proof.
  unfold group_badges. cbn [py_iter rbind].
  destruct (accumulate [] bs) as [gs|e] eqn:E1; cbn [rbind]; [|discriminate].
  destruct (sort_groups gs) as [gs2|e] eqn:E2; cbn [rbind]; [|discriminate].
  destruct (pop_known ISSUER_ORDER gs2) as [known rest] eqn:E3.
  destruct (sort_by fst rest) as [unknown|e] eqn:E4; cbn [rbind]; [|discriminate].
  intros H. inversion H; subst. exists gs, gs2, known, rest, unknown. tauto.
Qed.

Lemma Forall2_In_l {A B} (R : A -> B -> Prop) l1 l2 x :
  Forall2 R l1 l2 -> In x l1 -> exists y, In y l2 /\ R x y.
Proof.
  induction 1 as [|a b r1 r2 Hab _ IH]; intros Hx; [destruct Hx|].
  destruct Hx as [<-|Hx]; [exists b; cbn; tauto|].
  destruct (IH Hx) as [y [Hy Hr]]. exists y. cbn. tauto.
Qed.

Lemma Forall2_map_snd (known picked : list group) :
  Forall2 (fun p q => snd p = snd q /\ py_key_eqb (fst p) (fst q) = true) known picked ->
  map snd known = map snd picked.
Proof. induction 1 as [|p q r1 r2 [Hs _] _ IH]; cbn; [reflexivity|]. rewrite Hs, IH. reflexivity. Qed.

Lemma Permutation_concat {A} (l l' : list (list A)) :
  Permutation l l' -> Permutation (concat l) (concat l').
Proof.
  induction 1 as [|x l l' _ IH|x y l|l l' l'' _ IH1 _ IH2]; cbn.
  - reflexivity.
  - apply Permutation_app_head. exact IH.
  - rewrite !app_assoc. apply Permutation_app_tail. apply Permutation_app_comm.
  - rewrite IH1. exact IH2.
Qed.

(** Every group of the result is, up to the equality of its key, a group
    that the loop built and that was then sorted. *)
Lemma group_badges_In bs g k grp :
  group_badges (JArr bs) = Ok g -> In (k, grp) g ->
  exists k' l, py_key_eqb k k' = true /\ sort_group l = Ok grp /\
    hashable k' = true /\ l <> [] /\ l = filter (issuer_is k') bs.
Proof.
  intros H Hin.
  destruct (group_badges_parts _ _ H) as
    [gs [gs2 [known [rest [unknown [Hacc [Hsort [Hpop [Hun ->]]]]]]]]].
  pose proof (accumulate_inv [] _ _ _ Hacc acc_inv_nil) as [Hd [He _]].
  assert (Hd2 : distinct_keys (map fst gs2)) by (rewrite (sort_groups_keys _ _ Hsort); exact Hd).
  destruct (pop_known_spec _ _ _ _ NoDup_ISSUER_ORDER Hd2 Hpop)
    as [[picked [Hperm Hf]] _].
  assert (Hgs2 : exists k', py_key_eqb k k' = true /\ In (k', grp) gs2).
  { apply in_app_or in Hin. destruct Hin as [Hin|Hin].
    - destruct (Forall2_In_l _ _ _ _ Hf Hin) as [[k' l'] [Hq [Hs Hk]]]. cbn in Hs, Hk.
      subst l'. exists k'. split; [exact Hk|].
      apply (Permutation_in _ (Permutation_sym Hperm)). apply in_or_app. tauto.
    - apply (Permutation_in _ (sort_by_perm _ _ _ Hun)) in Hin.
      exists k. split.
      + assert (Hk : In (k, grp) gs2).
        { apply (Permutation_in _ (Permutation_sym Hperm)). apply in_or_app. tauto. }
        apply (in_map fst) in Hk. rewrite (sort_groups_keys _ _ Hsort) in Hk.
        apply in_map_iff in Hk. destruct Hk as [[k2 l2] [Hk2 Hin2]]. cbn in Hk2. subst k2.
        apply py_key_eqb_refl. exact (proj1 (He _ _ Hin2)).
      + apply (Permutation_in _ (Permutation_sym Hperm)). apply in_or_app. tauto. }
  destruct Hgs2 as [k' [Hk Hin2]].
  destruct (sort_groups_In _ _ _ _ Hsort Hin2) as [l [Hl Hs]].
  destruct (He _ _ Hl) as [Hh [Hne Hfl]]. cbn in Hfl.
  exists k', l. tauto.
Qed.

Lemma group_badges_perm bs g :
  group_badges (JArr bs) = Ok g -> Permutation (concat (map snd g)) bs.
Proof.
  intros H.
  destruct (group_badges_parts _ _ H) as
    [gs [gs2 [known [rest [unknown [Hacc [Hsort [Hpop [Hun ->]]]]]]]]].
  pose proof (accumulate_inv [] _ _ _ Hacc acc_inv_nil) as [Hd _].
  assert (Hd2 : distinct_keys (map fst gs2)) by (rewrite (sort_groups_keys _ _ Hsort); exact Hd).
  destruct (pop_known_spec _ _ _ _ NoDup_ISSUER_ORDER Hd2 Hpop)
    as [[picked [Hperm Hf]] _].
  pose proof (Forall2_map_snd _ _ Hf) as Hm. unfold group in *.
  rewrite map_app, concat_app, Hm.
  rewrite (Permutation_concat _ _ (Permutation_map snd (sort_by_perm _ _ _ Hun))).
  rewrite <- concat_app, <- map_app.
  rewrite <- (Permutation_concat _ _ (Permutation_map snd Hperm)).
  rewrite (sort_groups_perm _ _ Hsort), (accumulate_perm _ _ _ Hacc). reflexivity.
Qed.

(** A small feed: two IBM badges, one from an issuer outside the priority
    list, one from The Linux Foundation. *)
Definition sample_badge (id issuer date : string) : json :=
  JObj [(t "id", JStr (t id)); (t "issued_at_date", JStr (t date));
        (t "badge_template",
          JObj [(t "name", JStr (t "Badge")); (t "image_url", JStr (t "img"));
                (t "issuer",
                  JObj [(t "entities",
                    JArr [JObj [(t "entity", JObj [(t "name", JStr (t issuer))])]])])])].

Definition sample_badges : list json :=
  [sample_badge "a1" "IBM" "2023-05-01"; sample_badge "a2" "Acme" "2022-01-01";
   sample_badge "a3" "IBM" "2024-02-02"; sample_badge "a4" "The Linux Foundation" "2021-07-07"].

Definition sample_groups : list group :=
  match group_badges (JArr sample_badges) with Ok g => g | Raise _ => [] end.

(** C4: every input badge is in exactly one group (the concatenation of
    the groups is a permutation of the input), and each badge's group is
    keyed by its issuer name (equal as a dict key). *)
Theorem C4_grouping_complete bs g :
  group_badges (JArr bs) = Ok g ->
  Permutation (concat (map snd g)) bs /\
  (forall k grp b, In (k, grp) g -> In b grp -> issuer_is k b = true).
Proof.
  intros H. split; [exact (group_badges_perm _ _ H)|].
  intros k grp b Hin Hb.
  destruct (group_badges_In _ _ _ _ H Hin) as [k' [l [Hk [Hs [_ [_ Hl]]]]]].
  apply (Permutation_in _ (sort_group_perm _ _ Hs)) in Hb. rewrite Hl in Hb.
  apply filter_In in Hb. rewrite (issuer_is_congr _ _ _ Hk). tauto.
Qed.

Lemma C4_witness :
  group_badges (JArr sample_badges) = Ok sample_groups /\
  Permutation (concat (map snd sample_groups)) sample_badges /\
  (forall k grp b, In (k, grp) sample_groups -> In b grp -> issuer_is k b = true).
Proof.
  split; [vm_compute; reflexivity|]. apply C4_grouping_complete. vm_compute. reflexivity.
Defined.

(** ** Dates *)

(** The date a badge sorts by, when it is a string. *)
Definition date_of (b : json) : text :=
  match date_key b with Ok (JStr s) => s | _ => [] end.

Lemma map_result_dates l :
  (forall b, In b l -> date_key b = Ok (JStr (date_of b))) ->
  map_result date_key l = Ok (map (fun b => JStr (date_of b)) l).
Proof.
  induction l as [|b l IH]; intros H; cbn; [reflexivity|].
  rewrite (H b (or_introl eq_refl)). cbn [rbind].
  rewrite IH by (intros; apply H; cbn; tauto). reflexivity.
Qed.

Lemma combine_map_l {A B} (f : A -> B) l : combine (map f l) l = map (fun x => (f x, x)) l.
Proof. induction l as [|x l IH]; cbn; [reflexivity|]. rewrite IH. reflexivity. Qed.

Lemma ins_s_map {A B} (f : A -> B) (skey : B -> text) x l :
  ins_s skey (f x) (map f l) = map f (ins_s (fun a => skey (f a)) x l).
Proof.
  induction l as [|y l IH]; cbn; [reflexivity|].
  destruct (text_ltb (skey (f x)) (skey (f y))); cbn; [reflexivity|]. rewrite IH. reflexivity.
Qed.

Lemma isort_s_map {A B} (f : A -> B) (skey : B -> text) acc l :
  isort_s skey (map f acc) (map f l) = map f (isort_s (fun a => skey (f a)) acc l).
Proof.
  revert acc. induction l as [|x l IH]; intros acc; cbn; [reflexivity|].
  rewrite ins_s_map. apply IH.
Qed.

(** With string dates, a group is sorted by the pure insertion sort. *)
Lemma sort_group_str l :
  (forall b, In b l -> date_key b = Ok (JStr (date_of b))) ->
  sort_group l = Ok (rev (isort_s date_of [] (rev l))).
Proof.
  intros H. unfold sort_group. rewrite (map_result_dates _ H). cbn [rbind].
  rewrite combine_map_l. unfold sort_by_desc, sort_by.
  rewrite <- map_rev.
  rewrite (isort_str fst (fun p => date_of (snd p))).
  - cbn [rbind]. change (@nil (json * json)) with (map (fun x => (JStr (date_of x), x)) []).
    rewrite isort_s_map. cbn [snd]. rewrite map_rev, map_map. cbn. rewrite map_id.
    reflexivity.
  - intros a Ha. cbn in Ha. apply in_map_iff in Ha. destruct Ha as [x [<- _]]. reflexivity.
Qed.

Lemma StronglySorted_snoc {A} (R : A -> A -> Prop) l x :
  StronglySorted R l -> (forall y, In y l -> R y x) -> StronglySorted R (l ++ [x]).
Proof.
  induction 1 as [|y l Hl IH Hf]; intros H; cbn.
  - repeat constructor.
  - constructor.
    + apply IH. intros z Hz. apply H. cbn. tauto.
    + apply Forall_app. split; [exact Hf|]. constructor; [apply H; cbn; tauto|constructor].
Qed.

Lemma StronglySorted_rev {A} (R : A -> A -> Prop) l :
  StronglySorted R l -> StronglySorted (fun a b => R b a) (rev l).
Proof.
  induction 1 as [|x l Hl IH Hf]; cbn; [constructor|].
  apply StronglySorted_snoc; [exact IH|]. intros y Hy. apply in_rev in Hy.
  exact (proj1 (Forall_forall _ _) Hf y Hy).
Qed.

Lemma filter_rev' {A} (f : A -> bool) l : filter f (rev l) = rev (filter f l).
Proof.
  induction l as [|x l IH]; cbn; [reflexivity|].
  rewrite filter_app, IH. cbn. destruct (f x); cbn; [reflexivity|apply app_nil_r].
Qed.

Lemma filter_filter' {A} (f g : A -> bool) l :
  filter f (filter g l) = filter (fun x => g x && f x) l.
Proof.
  induction l as [|x l IH]; cbn; [reflexivity|].
  destruct (g x); cbn; [destruct (f x); cbn; rewrite IH; reflexivity|exact IH].
Qed.

(** The descending sort of one group: newest first, and ties kept in the
    order of the input. *)
Lemma sort_desc_props l :
  Sorted (fun a b => text_ltb (date_of a) (date_of b) = false) (rev (isort_s date_of [] (rev l))) /\
  (forall d, filter (fun b => text_eqb (date_of b) d) (rev (isort_s date_of [] (rev l))) =
             filter (fun b => text_eqb (date_of b) d) l).
Proof.
  split.
  - apply StronglySorted_Sorted.
    apply (StronglySorted_rev (le_key date_of)).
    apply Sorted_StronglySorted; [exact (le_key_trans _ date_of)|].
    apply isort_s_sorted. constructor.
  - intros d. rewrite filter_rev'.
    change (fun b => text_eqb (date_of b) d) with (key_is date_of d).
    rewrite isort_s_filter by constructor. cbn. rewrite filter_rev', rev_involutive.
    reflexivity.
Qed.

(** C5: when every badge's [issued_at_date] is a string or missing (then
    [""]), each group is sorted newest first (no badge is followed by one
    with a greater date), and the badges of the group with any one date
    appear in their input order. *)
Theorem C5_group_sorted_desc_stable bs g k grp :
  group_badges (JArr bs) = Ok g ->
  (forall b, In b bs -> date_key b = Ok (JStr (date_of b))) ->
  In (k, grp) g ->
  Sorted (fun a b => text_ltb (date_of a) (date_of b) = false) grp /\
  (forall d, filter (fun b => text_eqb (date_of b) d) grp =
             filter (fun b => issuer_is k b && text_eqb (date_of b) d) bs).
Proof.
  intros H Hd Hin.
  destruct (group_badges_In _ _ _ _ H Hin) as [k' [l [Hk [Hs [_ [_ Hl]]]]]].
  rewrite sort_group_str in Hs.
  - inversion Hs; subst grp. destruct (sort_desc_props l) as [H1 H2].
    split; [exact H1|]. intros d. rewrite H2, Hl, filter_filter'.
    apply filter_ext. intros b. rewrite (issuer_is_congr _ _ _ Hk). reflexivity.
  - intros b Hb. apply Hd. rewrite Hl in Hb. apply filter_In in Hb. tauto.
Qed.

Lemma C5_witness :
  group_badges (JArr sample_badges) = Ok sample_groups /\
  (forall b, In b sample_badges -> date_key b = Ok (JStr (date_of b))) /\
  In (JStr (t "IBM"), [sample_badge "a3" "IBM" "2024-02-02"; sample_badge "a1" "IBM" "2023-05-01"])
     sample_groups /\
  (Sorted (fun a b => text_ltb (date_of a) (date_of b) = false)
     [sample_badge "a3" "IBM" "2024-02-02"; sample_badge "a1" "IBM" "2023-05-01"] /\
   (forall d, filter (fun b => text_eqb (date_of b) d)
                [sample_badge "a3" "IBM" "2024-02-02"; sample_badge "a1" "IBM" "2023-05-01"] =
              filter (fun b => issuer_is (JStr (t "IBM")) b && text_eqb (date_of b) d) sample_badges)).
Proof.
  assert (Hg : group_badges (JArr sample_badges) = Ok sample_groups) by (vm_compute; reflexivity).
  assert (Hd : forall b, In b sample_badges -> date_key b = Ok (JStr (date_of b))).
  { intros b Hb. repeat destruct Hb as [<-|Hb]; try (vm_compute; reflexivity). destruct Hb. }
  assert (Hi : In (JStr (t "IBM"), [sample_badge "a3" "IBM" "2024-02-02"; sample_badge "a1" "IBM" "2023-05-01"])
     sample_groups) by (vm_compute; tauto).
  split; [exact Hg|]. split; [exact Hd|]. split; [exact Hi|].
  exact (C5_group_sorted_desc_stable _ _ _ _ Hg Hd Hi).
Defined.

(** ** Group order *)

(** The issuer name of a group, when it is a string. *)
Definition name_of (p : group) : text :=
  match fst p with JStr s => s | _ => [] end.

Lemma key_in_keys k gs : key_in k gs = existsb (py_key_eqb k) (map fst gs).
Proof. unfold key_in. induction gs as [|p gs IH]; cbn [existsb map]; [reflexivity|].
  rewrite IH. reflexivity. Qed.

Lemma key_in_badges bs gs k :
  acc_inv bs gs -> key_in k gs = existsb (issuer_is k) bs.
Proof.
  intros [_ [He Hc]]. destruct (existsb (issuer_is k) bs) eqn:E.
  - apply existsb_exists in E. destruct E as [b [Hb Hi]].
    destruct (Hc _ Hb) as [k' [Hk' Hi']]. unfold key_in. apply existsb_exists.
    apply in_map_iff in Hk'. destruct Hk' as [p [<- Hp]]. exists p.
    split; [exact Hp|exact (issuer_is_same _ _ _ Hi Hi')].
  - apply Bool.not_true_iff_false. intros Hx. unfold key_in in Hx.
    apply existsb_exists in Hx. destruct Hx as [[k' l] [Hp Hkk]]. cbn in Hkk.
    destruct (He _ _ Hp) as [_ [Hne Hl]]. destruct l as [|b l]; [congruence|].
    assert (Hb : In b (filter (issuer_is k') bs)) by (rewrite <- Hl; cbn; tauto).
    apply filter_In in Hb. destruct Hb as [Hb Hi].
    rewrite <- (issuer_is_congr _ _ _ Hkk) in Hi.
    apply Bool.not_true_iff_false in E. apply E. apply existsb_exists. eauto.
Qed.

Lemma acc_keys_str bs gs k :
  acc_inv bs gs -> (forall b, In b bs -> exists s, issuer_name b = Ok (JStr s)) ->
  In k (map fst gs) -> exists s, k = JStr s.
Proof.
  intros [_ [He _]] Hs Hk. apply in_map_iff in Hk. destruct Hk as [[k' l] [Hk Hp]].
  cbn in Hk. subst k'. destruct (He _ _ Hp) as [_ [Hne Hl]]. destruct l as [|b l]; [congruence|].
  assert (Hb : In b (filter (issuer_is k) bs)) by (rewrite <- Hl; cbn; tauto).
  apply filter_In in Hb. destruct Hb as [Hb Hi]. destruct (Hs _ Hb) as [s Hn].
  unfold issuer_is in Hi. rewrite Hn, py_key_eqb_sym in Hi. exists s.
  exact (py_key_eqb_JStr _ _ Hi).
Qed.

(** C6: when every issuer name is a string, the result is the groups of
    the priority issuers that some badge has, in the order of
    [ISSUER_ORDER], followed by the other groups sorted by issuer name;
    no group is empty. *)
Theorem C6_group_order bs g :
  group_badges (JArr bs) = Ok g ->
  (forall b, In b bs -> exists s, issuer_name b = Ok (JStr s)) ->
  exists known unknown,
    g = known ++ unknown /\
    map fst known = map JStr (filter (fun n => existsb (issuer_is (JStr n)) bs) ISSUER_ORDER) /\
    Sorted (fun p q => text_ltb (name_of q) (name_of p) = false) unknown /\
    (forall p, In p unknown -> fst p = JStr (name_of p) /\ ~ In (name_of p) ISSUER_ORDER) /\
    (forall p, In p g -> snd p <> []).
Proof.
  intros H Hs.
  destruct (group_badges_parts _ _ H) as
    [gs [gs2 [known [rest [unknown [Hacc [Hsort [Hpop [Hun Hg]]]]]]]]].
  pose proof (accumulate_inv [] _ _ _ Hacc acc_inv_nil) as Hinv. cbn in Hinv.
  assert (Hd2 : distinct_keys (map fst gs2))
    by (rewrite (sort_groups_keys _ _ Hsort); exact (proj1 Hinv)).
  destruct (pop_known_spec _ _ _ _ NoDup_ISSUER_ORDER Hd2 Hpop)
    as [[picked [Hperm _]] [Hkeys Hrest]].
  assert (Hrs : forall p, In p rest -> fst p = JStr (name_of p)).
  { intros [k l] Hp. unfold name_of. cbn.
    assert (Hk : In k (map fst gs)).
    { rewrite <- (sort_groups_keys _ _ Hsort).
      assert (Hp2 : In (k, l) gs2).
      { apply (Permutation_in _ (Permutation_sym Hperm)). apply in_or_app. tauto. }
      exact (in_map fst _ _ Hp2). }
    destruct (acc_keys_str _ _ _ Hinv Hs Hk) as [s ->]. reflexivity. }
  exists known, unknown. split; [exact Hg|]. split; [|split; [|split]].
  - rewrite Hkeys. f_equal. apply filter_ext. intros n. cbv beta.
    rewrite <- (key_in_badges _ _ _ Hinv), !key_in_keys, (sort_groups_keys _ _ Hsort).
    reflexivity.
  - unfold sort_by in Hun. rewrite (isort_str fst name_of [] rest) in Hun by (intros a Ha; exact (Hrs a Ha)).
    inversion Hun; subst unknown. apply (isort_s_sorted _ name_of). constructor.
  - intros p Hp. apply (Permutation_in _ (sort_by_perm _ _ _ Hun)) in Hp.
    split; [exact (Hrs _ Hp)|]. intros Hn. specialize (Hrest _ _ Hn Hp).
    rewrite (Hrs _ Hp) in Hrest. cbn in Hrest. rewrite text_eqb_refl in Hrest. discriminate.
  - intros [k grp] Hp.
    destruct (group_badges_In _ _ _ _ H Hp) as [k' [l [_ [Hsg [_ [Hne _]]]]]].
    cbn. intros ->. apply sort_group_perm, Permutation_length in Hsg.
    destruct l; [congruence|discriminate].
Qed.

Lemma C6_witness :
  group_badges (JArr sample_badges) = Ok sample_groups /\
  (forall b, In b sample_badges -> exists s, issuer_name b = Ok (JStr s)) /\
  exists known unknown,
    sample_groups = known ++ unknown /\
    map fst known =
      map JStr (filter (fun n => existsb (issuer_is (JStr n)) sample_badges) ISSUER_ORDER) /\
    Sorted (fun p q => text_ltb (name_of q) (name_of p) = false) unknown /\
    (forall p, In p unknown -> fst p = JStr (name_of p) /\ ~ In (name_of p) ISSUER_ORDER) /\
    (forall p, In p sample_groups -> snd p <> []).
Proof.
  assert (Hg : group_badges (JArr sample_badges) = Ok sample_groups) by (vm_compute; reflexivity).
  assert (Hs : forall b, In b sample_badges -> exists s, issuer_name b = Ok (JStr s)).
  { intros b Hb. repeat destruct Hb as [<-|Hb]; try (eexists; vm_compute; reflexivity).
    destruct Hb. }
  split; [exact Hg|]. split; [exact Hs|]. exact (C6_group_order _ _ Hg Hs).
Defined.

(** ** The rendered section, as the spec describes it *)

Section RenderSpec.
Variable cs : json -> text.

(** An anchor to the public badge URL built from the identifier, wrapping a
    90x90 image with the image URL as [src] and the display name as [alt]. *)
Definition anchor_spec (id image_url name : json) : text :=
  t "<a href=" ++ [DQ] ++ t "https://www.credly.com/badges/" ++ py_str cs id ++ t "/public_url"
  ++ [DQ] ++ t "><img height=" ++ [DQ] ++ t "90" ++ [DQ] ++ t " width=" ++ [DQ] ++ t "90" ++ [DQ]
  ++ t " src=" ++ [DQ] ++ py_str cs image_url ++ [DQ] ++ t " alt=" ++ [DQ] ++ py_str cs name
  ++ [DQ] ++ t "/></a>".

(** The badge has [id] and [badge_template], and the template has [name]
    and [image_url]. *)
Definition has_render_fields (b : json) : bool :=
  match member (t "id") b, member (t "badge_template") b with
  | Some _, Some tmpl =>
      match member (t "name") tmpl, member (t "image_url") tmpl with
      | Some _, Some _ => true
      | _, _ => false
      end
  | _, _ => false
  end.

Definition fragment_spec (b : json) : text :=
  match member (t "id") b, member (t "badge_template") b with
  | Some id, Some tmpl =>
      match member (t "name") tmpl, member (t "image_url") tmpl with
      | Some name, Some img => anchor_spec id img name
      | _, _ => []
      end
  | _, _ => []
  end.

(** The heading line, then per group: the bold issuer line, a blank line,
    the fragments joined by single spaces, a blank line; lines joined by
    newlines. *)
Definition section_spec (g : list group) : text :=
  join [NL] (HEADING :: [] ::
    concat (map (fun p => [t "**" ++ py_str cs (fst p) ++ t "**"; [];
                           join (t " ") (map fragment_spec (snd p)); []]) g)).

End RenderSpec.

Lemma member_getitem k v w : member k v = Some w -> getitem_key v k = Ok w.
Proof. destruct v as [| | | | |l]; cbn; try discriminate. intros ->. reflexivity. Qed.

Lemma getitem_member k v w : getitem_key v k = Ok w -> member k v = Some w.
Proof.
  destruct v as [| | | | |l]; cbn; try discriminate. destruct (obj_get k l); congruence.
Qed.

Lemma badge_html_spec cs b :
  has_render_fields b = true -> badge_html cs b = Ok (fragment_spec cs b).
Proof.
  unfold has_render_fields, fragment_spec, badge_html.
  destruct (member (t "id") b) as [id|] eqn:E1; [|discriminate].
  destruct (member (t "badge_template") b) as [tmpl|] eqn:E2; [|discriminate].
  destruct (member (t "name") tmpl) as [name|] eqn:E3; [|discriminate].
  destruct (member (t "image_url") tmpl) as [img|] eqn:E4; [|discriminate].
  intros _. rewrite (member_getitem _ _ _ E1). cbn [rbind].
  rewrite (member_getitem _ _ _ E2). cbn [rbind].
  rewrite (member_getitem _ _ _ E3). cbn [rbind].
  rewrite (member_getitem _ _ _ E4). cbn [rbind].
  unfold anchor_spec. reflexivity.
Qed.

Lemma map_result_badge_html cs l :
  (forall b, In b l -> has_render_fields b = true) ->
  map_result (badge_html cs) l = Ok (map (fragment_spec cs) l).
Proof.
  induction l as [|b l IH]; intros H; cbn; [reflexivity|].
  rewrite (badge_html_spec cs b (H b (or_introl eq_refl))). cbn [rbind].
  rewrite IH by (intros; apply H; cbn; tauto). reflexivity.
Qed.

Lemma group_lines_spec cs g :
  (forall p b, In p g -> In b (snd p) -> has_render_fields b = true) ->
  group_lines cs g =
    Ok (concat (map (fun p => [t "**" ++ py_str cs (fst p) ++ t "**"; [];
                               join (t " ") (map (fragment_spec cs) (snd p)); []]) g)).
Proof.
  induction g as [|[k l] g IH]; intros H; cbn [group_lines]; [reflexivity|].
  rewrite map_result_badge_html by (intros b Hb; exact (H (k, l) b (or_introl eq_refl) Hb)).
  cbn [rbind]. rewrite IH by (intros p b Hp Hb; apply (H p b); cbn; tauto).
  reflexivity.
Qed.

Lemma groups_fields_check (g : list group) :
  forallb (fun p : group => forallb has_render_fields (snd p)) g = true ->
  forall p b, In p g -> In b (snd p) -> has_render_fields b = true.
Proof.
  intros H p b Hp Hb. rewrite forallb_forall in H. specialize (H p Hp).
  rewrite forallb_forall in H. exact (H b Hb).
Qed.

(** C9: when every badge has its [id], its [badge_template] and the
    template's [name] and [image_url], render_section yields exactly the
    heading line, then for each group in order the bold issuer line, a
    blank line, the badges' anchors joined by single spaces and a blank
    line, all joined by newlines. *)
Theorem C9_render_section_layout cs g :
  (forall p b, In p g -> In b (snd p) -> has_render_fields b = true) ->
  render_section cs g = Ok (section_spec cs g).
Proof.
  intros H. unfold render_section. rewrite (group_lines_spec cs g H). reflexivity.
Qed.

Lemma C9_witness :
  (forall p b, In p sample_groups -> In b (snd p) -> has_render_fields b = true) /\
  render_section (fun _ => []) sample_groups = Ok (section_spec (fun _ => []) sample_groups).
Proof.
  assert (H : forall p b, In p sample_groups -> In b (snd p) -> has_render_fields b = true).
  { apply groups_fields_check. vm_compute. reflexivity. }
  split; [exact H|]. exact (C9_render_section_layout (fun _ => []) sample_groups H).
Defined.

(** ** Rendering a badge without one of its fields *)

Lemma badge_html_ok_fields cs b s : badge_html cs b = Ok s -> has_render_fields b = true.
Proof.
  unfold badge_html, has_render_fields.
  destruct (getitem_key b (t "id")) as [id|] eqn:E1; cbn [rbind]; [|discriminate].
  destruct (getitem_key b (t "badge_template")) as [tmpl|] eqn:E2; cbn [rbind]; [|discriminate].
  destruct (getitem_key tmpl (t "name")) as [name|] eqn:E3; cbn [rbind]; [|discriminate].
  destruct (getitem_key tmpl (t "image_url")) as [img|] eqn:E4; cbn [rbind]; [|discriminate].
  intros _. rewrite (getitem_member _ _ _ E1), (getitem_member _ _ _ E2),
    (getitem_member _ _ _ E3), (getitem_member _ _ _ E4). reflexivity.
Qed.

(** A badge that [issuer_name] accepts is a dict whose template, if any, is
    a dict: rendering it can only fail with [KeyError]. *)
Lemma badge_html_keyerror cs b k e :
  issuer_name b = Ok k -> badge_html cs b = Raise e -> e = KeyError.
Proof.
  intros Hi. unfold badge_html.
  destruct b as [| | | | |l]; try (vm_compute in Hi; discriminate).
  cbn [getitem_key].
  destruct (obj_get (t "id") l) as [id|]; cbn [rbind]; [|congruence].
  destruct (obj_get (t "badge_template") l) as [tmpl|] eqn:Et; cbn [rbind]; [|congruence].
  destruct tmpl as [| | | | |m];
    try (unfold issuer_name, issuer_path in Hi; cbn [getitem_key] in Hi; rewrite Et in Hi;
         cbn in Hi; discriminate).
  cbn [getitem_key].
  destruct (obj_get (t "name") m); cbn [rbind]; [|congruence].
  destruct (obj_get (t "image_url") m); cbn [rbind]; congruence.
Qed.

Lemma map_result_Ok_all {A B} (f : A -> result B) l ys x :
  map_result f l = Ok ys -> In x l -> exists y, f x = Ok y.
Proof.
  revert ys. induction l as [|a l IH]; intros ys H Hx; [destruct Hx|]. cbn in H.
  destruct (f a) as [y|] eqn:Ea; cbn [rbind] in H; [|discriminate].
  destruct (map_result f l) as [ys'|] eqn:Er; cbn [rbind] in H; [|discriminate].
  destruct Hx as [<-|Hx]; [eauto|exact (IH _ eq_refl Hx)].
Qed.

Lemma map_result_errs {A B} (f : A -> result B) l e0 e :
  (forall x e', In x l -> f x = Raise e' -> e' = e0) -> map_result f l = Raise e -> e = e0.
Proof.
  induction l as [|a l IH]; intros H Hm; cbn in Hm; [discriminate|].
  destruct (f a) as [y|e'] eqn:Ea; cbn [rbind] in Hm.
  - destruct (map_result f l) as [ys|e''] eqn:Er; cbn [rbind] in Hm; [discriminate|].
    inversion Hm; subst. apply IH; [intros; apply (H x); cbn; tauto|reflexivity].
  - inversion Hm; subst. exact (H a e (or_introl eq_refl) Ea).
Qed.

Lemma group_lines_keyerror cs g :
  (forall p b e, In p g -> In b (snd p) -> badge_html cs b = Raise e -> e = KeyError) ->
  (exists p b, In p g /\ In b (snd p) /\ has_render_fields b = false) ->
  group_lines cs g = Raise KeyError.
Proof.
  induction g as [|[k l] g IH]; intros Herr [p [b [Hp [Hb Hf]]]]; [destruct Hp|].
  cbn [group_lines].
  destruct (map_result (badge_html cs) l) as [frags|e] eqn:Em; cbn [rbind].
  - destruct Hp as [<-|Hp].
    + destruct (map_result_Ok_all _ _ _ _ Em Hb) as [s Hs].
      rewrite (badge_html_ok_fields _ _ _ Hs) in Hf. discriminate.
    + rewrite IH; [reflexivity| |eauto].
      intros p' b' e Hp' Hb'. apply (Herr p'); cbn; tauto.
  - f_equal. apply (map_result_errs _ _ _ _ (fun x e' Hx => Herr (k, l) x e' (or_introl eq_refl) Hx) Em).
Qed.

Lemma run_main_render_fails cs resp w data g e :
  fetch_badges resp = Ok data -> group_badges data = Ok g ->
  render_section cs g = Raise e -> run_main cs resp w = (Crash e, w).
Proof.
  intros Hf Hg Hr. unfold run_main, main. rewrite Hf. cbn. rewrite Hg. cbn. rewrite Hr.
  reflexivity.
Qed.

(** C10 (counterexample): a badge without ["id"] whose [issuer] is [null]
    crashes the run with [TypeError] in [issuer_name], during grouping;
    [badge_html] is never reached and no [KeyError] is raised. *)
Lemma C10_missing_id_crashes_in_grouping :
  let b := JObj [(t "badge_template", JObj [(t "issuer", JNull)])] in
  let resp := RBody (Some (JObj [(t "data", JArr [b])])) in
  has_render_fields b = false /\
  run_main (fun _ => []) resp (mkWorld (t "README") []) = (Crash TypeError, mkWorld (t "README") []).
Proof. vm_compute. split; reflexivity. Qed.

(** C10 (amended): once the fetched data is a list and grouping it
    succeeds, a badge without ["id"] or ["badge_template"], or whose
    template has no ["name"] or ["image_url"], makes the run end in an
    uncaught [KeyError] before README.md is read: the file and the output
    are as they were. *)
Theorem C10_missing_field_keyerror cs resp w bs g b :
  fetch_badges resp = Ok (JArr bs) ->
  group_badges (JArr bs) = Ok g ->
  In b bs -> has_render_fields b = false ->
  run_main cs resp w = (Crash KeyError, w).
Proof.
  intros Hf Hg Hb Hfl. apply (run_main_render_fails cs resp w (JArr bs) g KeyError Hf Hg).
  unfold render_section.
  destruct (group_badges_parts _ _ Hg) as [gs [_ [_ [_ [_ [Hacc _]]]]]].
  pose proof (group_badges_perm _ _ Hg) as Hperm.
  rewrite group_lines_keyerror; [reflexivity| |].
  - intros p b' e Hp Hb' He.
    assert (Hin : In b' bs).
    { apply (Permutation_in _ Hperm). apply in_concat. exists (snd p).
      split; [apply in_map; exact Hp|exact Hb']. }
    destruct (accumulate_issuers _ _ _ Hacc _ Hin) as [k [Hk _]].
    exact (badge_html_keyerror _ _ _ _ Hk He).
  - apply (Permutation_in _ (Permutation_sym Hperm)) in Hb.
    apply in_concat in Hb. destruct Hb as [l [Hl Hbl]]. apply in_map_iff in Hl.
    destruct Hl as [p [<- Hp]]. exists p, b. tauto.
Qed.

Definition no_id_badge : json :=
  JObj [(t "badge_template", JObj [(t "name", JStr (t "Badge")); (t "image_url", JStr (t "img"))])].

Definition feed_no_id : response :=
  RBody (Some (JObj [(t "data", JArr (sample_badges ++ [no_id_badge]))])).

Definition groups_no_id : list group :=
  match group_badges (JArr (sample_badges ++ [no_id_badge])) with Ok g => g | Raise _ => [] end.

Lemma C10_witness :
  let w := mkWorld (START_MARKER ++ END_MARKER) [] in
  fetch_badges feed_no_id = Ok (JArr (sample_badges ++ [no_id_badge])) /\
  group_badges (JArr (sample_badges ++ [no_id_badge])) = Ok groups_no_id /\
  In no_id_badge (sample_badges ++ [no_id_badge]) /\
  has_render_fields no_id_badge = false /\
  run_main (fun _ => []) feed_no_id w = (Crash KeyError, w).
Proof.
  intros w.
  assert (Hf : fetch_badges feed_no_id = Ok (JArr (sample_badges ++ [no_id_badge])))
    by (vm_compute; reflexivity).
  assert (Hg : group_badges (JArr (sample_badges ++ [no_id_badge])) = Ok groups_no_id)
    by (vm_compute; reflexivity).
  assert (Hb : In no_id_badge (sample_badges ++ [no_id_badge]))
    by (apply in_or_app; right; left; reflexivity).
  assert (Hn : has_render_fields no_id_badge = false) by (vm_compute; reflexivity).
  split; [exact Hf|]. split; [exact Hg|]. split; [exact Hb|]. split; [exact Hn|].
  exact (C10_missing_field_keyerror _ _ w _ _ _ Hf Hg Hb Hn).
Defined.

(** ** Running the patcher on its own output *)

Lemma join_snoc_nil sep xs : xs <> [] -> join sep (xs ++ [[]]) = join sep xs ++ sep.
Proof.
  induction xs as [|x r IH]; intros H; [congruence|].
  destruct r as [|y r].
  - cbn. rewrite app_nil_r. reflexivity.
  - change ((x :: y :: r) ++ [[]]) with (x :: ((y :: r) ++ [[]])).
    change (join sep (x :: (y :: r) ++ [[]])) with (x ++ sep ++ join sep ((y :: r) ++ [[]])).
    change (join sep (x :: y :: r)) with (x ++ sep ++ join sep (y :: r)).
    rewrite IH by discriminate. rewrite !app_assoc. reflexivity.
Qed.

Lemma group_lines_last cs g ls :
  group_lines cs g = Ok ls -> ls = [] \/ exists ls', ls = ls' ++ [[]].
Proof.
  revert ls. induction g as [|[k l] g IH]; intros ls H; cbn [group_lines] in H.
  - inversion H. left. reflexivity.
  - destruct (map_result (badge_html cs) l) as [frags|e]; cbn [rbind] in H; [|discriminate].
    destruct (group_lines cs g) as [rest|e]; cbn [rbind] in H; [|discriminate].
    inversion H; subst. right. destruct (IH rest eq_refl) as [->|[ls' ->]].
    + eexists [_; _; _]. reflexivity.
    + eexists (_ :: _ :: _ :: _ :: ls'). reflexivity.
Qed.

(** The rendered section ends with a newline. *)
Lemma render_section_ends_NL cs g sec :
  render_section cs g = Ok sec -> exists pre, sec = pre ++ [NL].
Proof.
  unfold render_section. destruct (group_lines cs g) as [ls|e] eqn:E; cbn [rbind]; [|discriminate].
  intros H. replace sec with (join [NL] (HEADING :: [] :: ls)) by congruence.
  destruct (group_lines_last _ _ _ E) as [->|[ls' ->]].
  - exists HEADING. change (HEADING :: [] :: []) with ([HEADING] ++ [[]]).
    rewrite join_snoc_nil by discriminate. reflexivity.
  - exists (join [NL] (HEADING :: [] :: ls')).
    change (HEADING :: [] :: ls' ++ [[]]) with ((HEADING :: [] :: ls') ++ [[]]).
    apply join_snoc_nil. discriminate.
Qed.

Lemma nth_mid {A} (P Q : list A) c d : nth (length P) (P ++ c :: Q) d = c.
Proof. rewrite app_nth2, Nat.sub_diag by lia. reflexivity. Qed.

Lemma firstn_app_exact {A} (P Q : list A) : firstn (length P) (P ++ Q) = P.
Proof. rewrite firstn_app, Nat.sub_diag, firstn_0, app_nil_r, firstn_all. reflexivity. Qed.

Lemma skipn_app_exact {A} (P Q : list A) : skipn (length P) (P ++ Q) = Q.
Proof. rewrite skipn_app, Nat.sub_diag, skipn_all. reflexivity. Qed.

(** In the spliced text the first start marker is where it was. *)
Lemma find_start_splice T s X :
  find START_MARKER T = Some s ->
  find START_MARKER (firstn (s + length START_MARKER) T ++ X) = Some s.
Proof.
  intros H. destruct (find_Some _ _ _ H) as [Os Hfirst].
  pose proof (occurs_at_length _ _ _ START_MARKER_nonempty Os) as Hl.
  assert (HP : length (firstn (s + length START_MARKER) T) = s + length START_MARKER)
    by (rewrite length_firstn; lia).
  assert (HT : T = firstn (s + length START_MARKER) T ++ skipn (s + length START_MARKER) T)
    by (symmetry; apply firstn_skipn).
  apply find_first.
  - apply occurs_at_app_l; [lia|]. rewrite HT in Os. apply occurs_at_app_l in Os; [exact Os|lia].
  - intros j Hj Hocc. apply occurs_at_app_l in Hocc; [|lia]. apply (Hfirst j Hj).
    rewrite HT. apply occurs_at_app_l; [lia|exact Hocc].
Qed.

(** With the start marker first and a section that ends with a newline and
    holds no end marker, the first end marker of the spliced text is the
    one that follows the section. *)
Lemma find_end_splice T s e sec :
  find START_MARKER T = Some s -> find END_MARKER T = Some e -> s < e ->
  (exists pre, sec = pre ++ [NL]) -> find END_MARKER sec = None ->
  let P := firstn (s + length START_MARKER) T in
  find END_MARKER (P ++ [NL] ++ sec ++ skipn e T) = Some (length P + 1 + length sec).
Proof.
  intros Hs He Hlt [pre Hpre] Hsec P.
  destruct (find_Some _ _ _ Hs) as [Os _]. destruct (find_Some _ _ _ He) as [Oe Hfirst].
  pose proof (markers_disjoint _ _ _ Os Oe Hlt) as Hd.
  pose proof (occurs_at_length _ _ _ START_MARKER_nonempty Os) as Hl.
  assert (HP : length P = s + length START_MARKER) by (unfold P; rewrite length_firstn; lia).
  assert (HT : T = P ++ skipn (s + length START_MARKER) T) by (symmetry; apply firstn_skipn).
  set (Q := skipn e T). pose proof END_MARKER_length as HlE.
  assert (Hsplit : P ++ [NL] ++ sec ++ Q = (P ++ [NL]) ++ sec ++ Q)
    by (rewrite <- app_assoc; reflexivity).
  apply find_first.
  - replace (P ++ [NL] ++ sec ++ Q) with ((P ++ [NL] ++ sec) ++ Q)
      by (rewrite <- !app_assoc; reflexivity).
    replace (length P + 1 + length sec) with (length (P ++ [NL] ++ sec) + 0)
      by (rewrite !length_app; cbn; lia).
    apply occurs_at_app_r. exact Oe.
  - intros j Hj Hocc.
    destruct (Nat.le_gt_cases (j + length END_MARKER) (length P)) as [H1|H1].
    + apply occurs_at_app_l in Hocc; [|exact H1]. apply (Hfirst j); [lia|].
      rewrite HT. apply occurs_at_app_l; [exact H1|exact Hocc].
    + destruct (Nat.le_gt_cases j (length P)) as [H2|H2].
      * pose proof (occurs_at_nth _ _ _ (length P - j) NL Hocc ltac:(lia)) as Hn.
        replace (j + (length P - j)) with (length P) in Hn by lia.
        apply (END_MARKER_no_NL (length P - j) NL); [lia|]. rewrite <- Hn.
        apply nth_mid.
      * rewrite Hsplit in Hocc.
        replace j with (length (P ++ [NL]) + (j - length P - 1)) in Hocc
          by (rewrite length_app; cbn; lia).
        apply occurs_at_app_r in Hocc.
        assert (Hj' : j - length P - 1 < length sec) by lia.
        assert (Hls : length sec = length pre + 1) by (rewrite Hpre, length_app; reflexivity).
        destruct (Nat.le_gt_cases (j - length P - 1 + length END_MARKER) (length sec)) as [H3|H3].
        -- apply occurs_at_app_l in Hocc; [|exact H3]. exact (find_None _ _ Hsec _ Hocc).
        -- pose proof (occurs_at_nth _ _ _ (length sec - 1 - (j - length P - 1)) NL Hocc
                         ltac:(lia)) as Hn.
           replace (j - length P - 1 + (length sec - 1 - (j - length P - 1))) with (length pre)
             in Hn by lia.
           apply (END_MARKER_no_NL (length sec - 1 - (j - length P - 1)) NL); [lia|].
           rewrite <- Hn, Hpre, <- app_assoc. apply nth_mid.
Qed.

Lemma NL_not_CR : NL <> CR.
Proof. vm_compute. discriminate. Qed.

Lemma splice_no_CR T sec s e :
  ~ In CR T -> ~ In CR sec -> ~ In CR (spliced T sec s e).
Proof.
  intros HT Hs Hin. unfold spliced in Hin.
  apply in_app_or in Hin. destruct Hin as [Hin|Hin].
  - apply HT. rewrite <- (firstn_skipn (s + length START_MARKER) T). apply in_or_app. tauto.
  - cbn [app] in Hin. destruct Hin as [Hin|Hin]; [exact (NL_not_CR Hin)|].
    apply in_app_or in Hin. destruct Hin as [Hin|Hin]; [exact (Hs Hin)|].
    apply HT. rewrite <- (firstn_skipn e T). apply in_or_app. tauto.
Qed.

(** Splicing the same section into the spliced text gives it back. *)
Lemma spliced_fixpoint T sec s e :
  find START_MARKER T = Some s -> find END_MARKER T = Some e -> s < e ->
  (exists pre, sec = pre ++ [NL]) -> find END_MARKER sec = None ->
  let new := spliced T sec s e in
  find START_MARKER new = Some s /\
  find END_MARKER new = Some (length (firstn (s + length START_MARKER) T) + 1 + length sec) /\
  spliced new sec s (length (firstn (s + length START_MARKER) T) + 1 + length sec) = new.
Proof.
  intros Hs He Hlt Hpre Hsec new.
  destruct (find_Some _ _ _ Hs) as [Os _].
  pose proof (occurs_at_length _ _ _ START_MARKER_nonempty Os) as Hl.
  assert (HP : length (firstn (s + length START_MARKER) T) = s + length START_MARKER)
    by (rewrite length_firstn; lia).
  split; [|split].
  - apply find_start_splice. exact Hs.
  - exact (find_end_splice T s e sec Hs He Hlt Hpre Hsec).
  - unfold new, spliced. rewrite <- HP at 1. rewrite firstn_app_exact. f_equal. f_equal. f_equal.
    replace (firstn (s + length START_MARKER) T ++ [NL] ++ sec ++ skipn e T)
      with ((firstn (s + length START_MARKER) T ++ [NL] ++ sec) ++ skipn e T)
      by (rewrite <- !app_assoc; reflexivity).
    replace (length (firstn (s + length START_MARKER) T) + 1 + length sec)
      with (length (firstn (s + length START_MARKER) T ++ [NL] ++ sec))
      by (rewrite !length_app; cbn; lia).
    apply skipn_app_exact.
Qed.

Lemma no_CR_check l : existsb (Ascii.eqb CR) l = false -> ~ In CR l.
Proof.
  intros H Hin. apply Bool.not_true_iff_false in H. apply H. apply existsb_exists.
  exists CR. split; [exact Hin|apply Ascii.eqb_refl].
Qed.

(** C7 (counterexample): with the end marker before the start marker, the
    second run over the same (empty) feed writes README.md again, and
    every further run grows it. *)
Lemma C7_reversed_markers_second_write :
  let cs := fun _ : json => @nil ascii in
  let w1 := snd (run_main cs empty_feed (mkWorld (END_MARKER ++ START_MARKER) [])) in
  let new := END_MARKER ++ START_MARKER ++ [NL] ++ HEADING ++ [NL] ++ file w1 in
  file w1 = END_MARKER ++ START_MARKER ++ [NL] ++ HEADING ++ [NL] ++ END_MARKER ++ START_MARKER /\
  run_main cs empty_feed w1 = (Exit 0, mkWorld new (trace w1 ++ [ERead; EWrite new; EOut MUpdated])).
Proof. vm_compute. split; reflexivity. Qed.

(** C7 (amended): when the spliced text equals the text read, the run
    writes nothing and prints "No changes needed."; and when the start
    marker comes before the end marker and the rendered section holds no
    carriage return and no end marker, a second run with the same fetched
    data (from the world the first run left) writes nothing either. *)
Theorem C7_patch_idempotent cs resp w data g sec :
  fetch_badges resp = Ok data -> group_badges data = Ok g -> render_section cs g = Ok sec ->
  let T := universal_newlines (file w) in
  (forall s e, find START_MARKER T = Some s -> find END_MARKER T = Some e ->
     spliced T sec s e = T ->
     run_main cs resp w = (Exit 0, mkWorld (file w) (trace w ++ [ERead; EOut MNoChanges]))) /\
  (forall s e, find START_MARKER T = Some s -> find END_MARKER T = Some e -> s < e ->
     ~ In CR sec -> find END_MARKER sec = None ->
     let w1 := snd (run_main cs resp w) in
     run_main cs resp w1 = (Exit 0, mkWorld (file w1) (trace w1 ++ [ERead; EOut MNoChanges]))).
Proof.
  intros Hf Hg Hr. cbv zeta. split.
  - intros s e Hs He Heq.
    rewrite (run_main_patch cs resp w data g sec Hf Hg Hr), (update_readme_found sec w s e Hs He).
    cbv zeta. rewrite Heq, text_eqb_refl. reflexivity.
  - intros s e Hs He Hlt HCR HE.
    set (T := universal_newlines (file w)) in *.
    pose proof (render_section_ends_NL _ _ _ Hr) as Hpre.
    destruct (spliced_fixpoint T sec s e Hs He Hlt Hpre HE) as [Hs2 [He2 Hfix]].
    set (w1 := snd (run_main cs resp w)).
    assert (Hw1 : universal_newlines (file w1) = spliced T sec s e).
    { unfold w1. rewrite (run_main_patch cs resp w data g sec Hf Hg Hr).
      rewrite (update_readme_found sec w s e Hs He). cbv zeta. fold T.
      destruct (text_eqb (spliced T sec s e) T) eqn:E; cbn [finish snd file].
      - apply text_eqb_true in E. rewrite E. reflexivity.
      - apply universal_newlines_id. apply splice_no_CR; [apply universal_newlines_no_CR|exact HCR]. }
    rewrite <- Hw1 in Hs2, He2, Hfix.
    rewrite (run_main_patch cs resp w1 data g sec Hf Hg Hr), (update_readme_found sec w1 _ _ Hs2 He2).
    cbv zeta. rewrite Hfix, text_eqb_refl. reflexivity.
Qed.

Lemma C7_witness :
  let cs := fun _ : json => @nil ascii in
  let w := mkWorld (t "intro" ++ START_MARKER ++ t "old" ++ END_MARKER) [] in
  let w1 := snd (run_main cs empty_feed w) in
  fetch_badges empty_feed = Ok (JArr []) /\ group_badges (JArr []) = Ok [] /\
  render_section cs [] = Ok (HEADING ++ [NL]) /\
  run_main cs empty_feed w1 = (Exit 0, mkWorld (file w1) (trace w1 ++ [ERead; EOut MNoChanges])).
Proof.
  intros cs w w1.
  assert (Hf : fetch_badges empty_feed = Ok (JArr [])) by reflexivity.
  assert (Hg : group_badges (JArr []) = Ok []) by reflexivity.
  assert (Hr : render_section cs [] = Ok (HEADING ++ [NL])) by reflexivity.
  split; [exact Hf|]. split; [exact Hg|]. split; [exact Hr|].
  apply (proj2 (C7_patch_idempotent cs empty_feed w (JArr []) [] _ Hf Hg Hr) 5 36).
  - vm_compute. reflexivity.
  - vm_compute. reflexivity.
  - lia.
  - apply no_CR_check. vm_compute. reflexivity.
  - vm_compute. reflexivity.
Defined.

(** * Further properties of the script *)

(** ** Which exceptions [issuer_name] lets through *)

Lemma getitem_key_err v k e : getitem_key v k = Raise e -> e = KeyError \/ e = TypeError.
Proof.
  destruct v as [| | | | |l]; cbn; intros H; try (injection H as <-; tauto).
  destruct (obj_get k l); [discriminate|]. injection H as <-. tauto.
Qed.

Lemma getitem_0_err v e : getitem_0 v = Raise e -> e = KeyError \/ e = IndexError \/ e = TypeError.
Proof.
  destruct v as [| | |s|l|l]; [| | |destruct s|destruct l|];
    cbn; intros H; try discriminate H; injection H as <-; tauto.
Qed.

Lemma issuer_path_err b e : issuer_path b = Raise e -> e = KeyError \/ e = IndexError \/ e = TypeError.
Proof.
  unfold issuer_path.
  repeat match goal with
         | |- rbind ?r _ = _ -> _ => destruct r eqn:?; cbn [rbind]
         end;
  intros H; try (injection H as <-);
  match goal with
  | Hx : getitem_key _ _ = Raise _ |- _ => destruct (getitem_key_err _ _ _ Hx); tauto
  | Hx : getitem_0 _ = Raise _ |- _ => destruct (getitem_0_err _ _ Hx) as [|[|]]; tauto
  end.
Qed.

Lemma issuer_name_err b e : issuer_name b = Raise e -> e = TypeError.
Proof.
  unfold issuer_name. destruct (issuer_path b) as [v|e0] eqn:E; intros H; [discriminate H|].
  destruct (issuer_path_err _ _ E) as [-> | [-> | ->]]; [discriminate H|discriminate H|].
  injection H as <-. reflexivity.
Qed.

(** ** The loop over the badges *)

(** The loop gets past [badge]: its issuer name is computed and can be a
    dict key. *)
Definition issuer_ok (b : json) : bool :=
  match issuer_name b with Ok v => hashable v | Raise _ => false end.

Lemma accumulate_bad gs bs :
  (exists b, In b bs /\ issuer_ok b = false) -> accumulate gs bs = Raise TypeError.
Proof.
  revert gs. induction bs as [|a bs IH]; intros gs [b [Hb Hbad]]; [destruct Hb|]. cbn.
  destruct (issuer_name a) as [v|e] eqn:E; cbn [rbind].
  - destruct Hb as [<-|Hb].
    + unfold issuer_ok in Hbad. rewrite E in Hbad. rewrite Hbad. reflexivity.
    + destruct (hashable v); [|reflexivity]. apply IH. eauto.
  - rewrite (issuer_name_err _ _ E). reflexivity.
Qed.

Lemma accumulate_ok gs bs :
  (forall b, In b bs -> issuer_ok b = true) -> exists gs', accumulate gs bs = Ok gs'.
Proof.
  revert gs. induction bs as [|a bs IH]; intros gs H; cbn; [eauto|].
  pose proof (H a (or_introl eq_refl)) as Ha. unfold issuer_ok in Ha.
  destruct (issuer_name a) as [v|e]; cbn [rbind]; [|discriminate].
  rewrite Ha. apply IH. intros b Hb. apply H. cbn. tauto.
Qed.

Lemma map_result_all_Ok {A B} (f : A -> result B) l :
  (forall x, In x l -> exists y, f x = Ok y) -> exists ys, map_result f l = Ok ys.
Proof.
  induction l as [|x l IH]; intros H; cbn; [eauto|].
  destruct (H x (or_introl eq_refl)) as [y ->]. cbn [rbind].
  destruct IH as [ys ->]; [intros; apply H; cbn; tauto|]. cbn [rbind]. eauto.
Qed.

(** ** Keys of the grouping *)

Lemma distinct_keys_perm l l' : Permutation l l' -> distinct_keys l -> distinct_keys l'.
Proof.
  induction 1 as [|x l l' Hp IH|x y l|l l' l'' _ IH1 _ IH2]; cbn; intros Hd.
  - exact I.
  - destruct Hd as [H1 H2]. split; [|exact (IH H2)].
    intros k Hk. apply H1. exact (Permutation_in _ (Permutation_sym Hp) Hk).
  - destruct Hd as [Hy [Hx Hl]]. split; [|split].
    + intros k [<-|Hk]; [|exact (Hx _ Hk)]. rewrite py_key_eqb_sym. apply Hy. left. reflexivity.
    + intros k Hk. apply Hy. right. exact Hk.
    + exact Hl.
  - exact (IH2 (IH1 Hd)).
Qed.

Lemma distinct_keys_app l1 l2 :
  distinct_keys l1 -> distinct_keys l2 ->
  (forall a b, In a l1 -> In b l2 -> py_key_eqb a b = false) -> distinct_keys (l1 ++ l2).
Proof.
  induction l1 as [|a l1 IH]; cbn; intros H1 H2 Hx; [exact H2|].
  destruct H1 as [Ha H1]. split.
  - intros k Hk. apply in_app_or in Hk. destruct Hk as [Hk|Hk]; [exact (Ha _ Hk)|].
    apply Hx; tauto.
  - apply IH; [exact H1|exact H2|]. intros a' b' Ha' Hb'. apply Hx; tauto.
Qed.

Lemma distinct_keys_app_r l1 l2 : distinct_keys (l1 ++ l2) -> distinct_keys l2.
Proof. induction l1 as [|a l1 IH]; cbn; [tauto|]. intros [_ H]. exact (IH H). Qed.

Lemma distinct_keys_JStr l : NoDup l -> distinct_keys (map JStr l).
Proof.
  induction 1 as [|x l Hx _ IH]; cbn; [exact I|]. split; [|exact IH].
  intros k Hk. apply in_map_iff in Hk. destruct Hk as [y [<- Hy]]. cbn.
  apply text_eqb_false. intros ->. exact (Hx Hy).
Qed.

Lemma group_badges_list_keys bs g :
  group_badges (JArr bs) = Ok g -> distinct_keys (map fst g).
Proof.
  intros H.
  destruct (group_badges_parts _ _ H) as
    [gs [gs2 [known [rest [unknown [Hacc [Hsort [Hpop [Hun ->]]]]]]]]].
  pose proof (accumulate_inv [] _ _ _ Hacc acc_inv_nil) as [Hd _].
  assert (Hd2 : distinct_keys (map fst gs2)) by (rewrite (sort_groups_keys _ _ Hsort); exact Hd).
  destruct (pop_known_spec _ _ _ _ NoDup_ISSUER_ORDER Hd2 Hpop)
    as [[picked [Hperm _]] [Hkeys Hrest]].
  assert (Hdr : distinct_keys (map fst rest)).
  { apply (distinct_keys_app_r (map fst picked)). rewrite <- map_app.
    exact (distinct_keys_perm _ _ (Permutation_map fst Hperm) Hd2). }
  pose proof (Permutation_map fst (sort_by_perm _ _ _ Hun)) as Hpu.
  unfold group in *. rewrite map_app. apply distinct_keys_app.
  - rewrite Hkeys. apply distinct_keys_JStr. apply NoDup_filter. exact NoDup_ISSUER_ORDER.
  - exact (distinct_keys_perm _ _ (Permutation_sym Hpu) Hdr).
  - intros a b Ha Hb. rewrite Hkeys in Ha. apply in_map_iff in Ha.
    destruct Ha as [n [<- Hn]]. apply filter_In in Hn.
    apply (Permutation_in _ Hpu) in Hb. apply in_map_iff in Hb. destruct Hb as [p [<- Hp]].
    exact (Hrest n p (proj1 Hn) Hp).
Qed.

(** ** Data that is not a list *)



(** ** Grouping succeeds on well-formed badges *)

Lemma group_badges_ok_str bs :
  (forall b, In b bs -> exists s, issuer_name b = Ok (JStr s)) ->
  (forall b, In b bs -> date_key b = Ok (JStr (date_of b))) ->
  exists g, group_badges (JArr bs) = Ok g.
Proof.
  intros Hs Hd.
  destruct (accumulate_ok [] bs) as [gs Hacc].
  { intros b Hb. destruct (Hs b Hb) as [s Hn]. unfold issuer_ok. rewrite Hn. reflexivity. }
  pose proof (accumulate_inv [] _ _ _ Hacc acc_inv_nil) as Hinv. cbn in Hinv.
  destruct (map_result_all_Ok (fun '(k, l) => let* l' := sort_group l in Ok (k, l')) gs)
    as [gs2 Hsort].
  { intros [k l] Hp. destruct Hinv as [_ [He _]]. destruct (He _ _ Hp) as [_ [_ Hl]].
    rewrite sort_group_str.
    - cbn [rbind]. eauto.
    - intros b Hb. rewrite Hl in Hb. apply filter_In in Hb. exact (Hd b (proj1 Hb)). }
  fold (sort_groups gs) in Hsort.
  destruct (pop_known ISSUER_ORDER gs2) as [known rest] eqn:Hpop.
  assert (Hd2 : distinct_keys (map fst gs2))
    by (rewrite (sort_groups_keys _ _ Hsort); exact (proj1 Hinv)).
  destruct (pop_known_spec _ _ _ _ NoDup_ISSUER_ORDER Hd2 Hpop) as [[picked [Hperm _]] _].
  assert (Hrs : forall p, In p rest -> fst p = JStr (name_of p)).
  { intros [k l] Hp. unfold name_of. cbn.
    assert (Hk : In k (map fst gs)).
    { rewrite <- (sort_groups_keys _ _ Hsort).
      assert (Hp2 : In (k, l) gs2).
      { apply (Permutation_in _ (Permutation_sym Hperm)). apply in_or_app. tauto. }
      exact (in_map fst _ _ Hp2). }
    destruct (acc_keys_str _ _ _ Hinv Hs Hk) as [s ->]. reflexivity. }
  exists (known ++ isort_s name_of [] rest).
  unfold group_badges. cbn [py_iter rbind]. rewrite Hacc. cbn [rbind]. rewrite Hsort.
  cbn [rbind]. rewrite Hpop. unfold sort_by. rewrite (isort_str fst name_of [] rest).
  - reflexivity.
  - intros a Ha. exact (Hrs a Ha).
Qed.

(** ** Rendering *)

Lemma group_lines_ok_all cs g ls :
  group_lines cs g = Ok ls ->
  forall p, In p g -> exists frags, map_result (badge_html cs) (snd p) = Ok frags.
Proof.
  revert ls. induction g as [|[k l] g IH]; intros ls H p Hp; [destruct Hp|].
  cbn [group_lines] in H.
  destruct (map_result (badge_html cs) l) as [frags|e] eqn:Em; cbn [rbind] in H; [|discriminate].
  destruct (group_lines cs g) as [rest|e] eqn:Er; cbn [rbind] in H; [|discriminate].
  destruct Hp as [<-|Hp]; [eauto|exact (IH _ eq_refl _ Hp)].
Qed.

(** ** The run *)


(** ** What a write of the patcher holds *)


(** ** Properties of the script's functions *)





(** X3: when the fetched data is a list in which some badge's issuer name
    cannot be computed ([issuer_name] raises) or is a list or a dict (not
    a valid dict key), the run ends in an uncaught [TypeError] before
    README.md is read: the file and the output are as they were. *)
Theorem run_main_bad_issuer_crash cs resp w bs b :
  fetch_badges resp = Ok (JArr bs) -> In b bs -> issuer_ok b = false ->
  run_main cs resp w = (Crash TypeError, w).
Proof.
  intros Hf Hb Hbad.
  assert (Hg : group_badges (JArr bs) = Raise TypeError).
  { unfold group_badges. cbn [py_iter rbind]. rewrite (accumulate_bad [] bs); [reflexivity|eauto]. }
  unfold run_main, main. rewrite Hf. cbv [pbind lift]. rewrite Hg. reflexivity.
Qed.

Definition list_issuer_badge : json :=
  JObj [(t "id", JStr (t "x"));
        (t "badge_template",
          JObj [(t "issuer",
            JObj [(t "entities",
              JArr [JObj [(t "entity", JObj [(t "name", JArr [])])]])])])].

Definition feed_list_issuer : response :=
  RBody (Some (JObj [(t "data", JArr (sample_badges ++ [list_issuer_badge]))])).

Lemma run_main_bad_issuer_crash_witness :
  let w := mkWorld (START_MARKER ++ END_MARKER) [] in
  fetch_badges feed_list_issuer = Ok (JArr (sample_badges ++ [list_issuer_badge])) /\
  In list_issuer_badge (sample_badges ++ [list_issuer_badge]) /\
  issuer_ok list_issuer_badge = false /\
  run_main (fun _ => []) feed_list_issuer w = (Crash TypeError, w).
Proof.
  intros w.
  assert (Hf : fetch_badges feed_list_issuer = Ok (JArr (sample_badges ++ [list_issuer_badge])))
    by (vm_compute; reflexivity).
  assert (Hb : In list_issuer_badge (sample_badges ++ [list_issuer_badge]))
    by (apply in_or_app; right; left; reflexivity).
  assert (Hn : issuer_ok list_issuer_badge = false) by (vm_compute; reflexivity).
  split; [exact Hf|]. split; [exact Hb|]. split; [exact Hn|].
  exact (run_main_bad_issuer_crash _ _ w _ _ Hf Hb Hn).
Defined.

(** X4: when every badge's issuer name is a string and every badge's
    [issued_at_date] is a string or missing, [group_badges] does not
    raise. *)
Theorem group_badges_total_on_strings bs :
  (forall b, In b bs -> exists s, issuer_name b = Ok (JStr s)) ->
  (forall b, In b bs -> date_key b = Ok (JStr (date_of b))) ->
  exists g, group_badges (JArr bs) = Ok g.
Proof. exact (group_badges_ok_str bs). Qed.

Lemma sample_issuers_str :
  forall b, In b sample_badges -> exists s, issuer_name b = Ok (JStr s).
Proof.
  intros b Hb. repeat destruct Hb as [<-|Hb]; try (eexists; vm_compute; reflexivity).
  destruct Hb.
Qed.

Lemma sample_dates_str :
  forall b, In b sample_badges -> date_key b = Ok (JStr (date_of b)).
Proof.
  intros b Hb. repeat destruct Hb as [<-|Hb]; try (vm_compute; reflexivity). destruct Hb.
Qed.

Lemma group_badges_total_on_strings_witness :
  (forall b, In b sample_badges -> exists s, issuer_name b = Ok (JStr s)) /\
  (forall b, In b sample_badges -> date_key b = Ok (JStr (date_of b))) /\
  exists g, group_badges (JArr sample_badges) = Ok g.
Proof.
  split; [exact sample_issuers_str|]. split; [exact sample_dates_str|].
  exact (group_badges_total_on_strings _ sample_issuers_str sample_dates_str).
Defined.

(** X5: [render_section] succeeds exactly when every badge of every group
    has an [id] and a [badge_template] whose [name] and [image_url] are
    present. *)
Theorem render_section_ok_iff cs g :
  (exists sec, render_section cs g = Ok sec) <->
  (forall p b, In p g -> In b (snd p) -> has_render_fields b = true).
Proof.
  split.
  - intros [sec H] p b Hp Hb. unfold render_section in H.
    destruct (group_lines cs g) as [ls|e] eqn:E; cbn [rbind] in H; [|discriminate].
    destruct (group_lines_ok_all _ _ _ E _ Hp) as [frags Hm].
    destruct (map_result_Ok_all _ _ _ _ Hm Hb) as [s Hs].
    exact (badge_html_ok_fields _ _ _ Hs).
  - intros H. unfold render_section. rewrite (group_lines_spec cs g H). cbn [rbind]. eauto.
Qed.










(** ** Grouping the grouped badges again *)

Lemma ins_s_last {A} (skey : A -> text) x l :
  (forall y, In y l -> text_ltb (skey x) (skey y) = false) -> ins_s skey x l = l ++ [x].
Proof.
  induction l as [|y l IH]; intros H; cbn; [reflexivity|].
  rewrite (H y (or_introl eq_refl)). rewrite IH; [reflexivity|].
  intros z Hz. apply H. right. exact Hz.
Qed.

Lemma StronglySorted_mid {A} (R : A -> A -> Prop) l1 x l2 :
  StronglySorted R (l1 ++ x :: l2) -> forall y, In y l1 -> R y x.
Proof.
  induction l1 as [|a l1 IH]; cbn; intros H y Hy; [destruct Hy|].
  inversion H as [|a' l' Hs Hf]; subst. destruct Hy as [<-|Hy].
  - rewrite Forall_forall in Hf. apply Hf. apply in_or_app. right. left. reflexivity.
  - exact (IH Hs y Hy).
Qed.

Lemma isort_s_id {A} (skey : A -> text) acc l :
  StronglySorted (le_key skey) (acc ++ l) -> isort_s skey acc l = acc ++ l.
Proof.
  revert acc. induction l as [|x l IH]; intros acc H; cbn; [rewrite app_nil_r; reflexivity|].
  rewrite ins_s_last.
  - rewrite IH; [rewrite <- app_assoc; reflexivity|]. rewrite <- app_assoc. exact H.
  - intros y Hy. exact (StronglySorted_mid _ _ _ _ H y Hy).
Qed.

(** Insertion sort leaves a sorted list as it is. *)
Lemma isort_s_sorted_id {A} (skey : A -> text) l :
  Sorted (le_key skey) l -> isort_s skey [] l = l.
Proof.
  intros H. apply (isort_s_id skey [] l). cbn.
  apply Sorted_StronglySorted; [exact (le_key_trans _ skey)|exact H].
Qed.

Lemma accumulate_app gs l1 l2 :
  accumulate gs (l1 ++ l2) = rbind (accumulate gs l1) (fun gs' => accumulate gs' l2).
Proof.
  revert gs. induction l1 as [|b l1 IH]; intros gs; cbn; [reflexivity|].
  destruct (issuer_name b) as [k|e]; cbn [rbind]; [|reflexivity].
  destruct (hashable k); [apply IH|reflexivity].
Qed.

Lemma setdefault_new k b gs :
  (forall p, In p gs -> py_key_eqb (fst p) k = false) -> setdefault_append k b gs = gs ++ [(k, [b])].
Proof.
  induction gs as [|[k' l] gs IH]; intros H; cbn; [reflexivity|].
  pose proof (H (k', l) (or_introl eq_refl)) as E; cbn [fst] in E; rewrite E. rewrite IH; [reflexivity|].
  intros p Hp. apply H. right. exact Hp.
Qed.

Lemma setdefault_last k b gs acc :
  hashable k = true -> (forall p, In p gs -> py_key_eqb (fst p) k = false) ->
  setdefault_append k b (gs ++ [(k, acc)]) = gs ++ [(k, acc ++ [b])].
Proof.
  intros Hh. induction gs as [|[k' l] gs IH]; intros H; cbn.
  - rewrite py_key_eqb_refl by exact Hh. reflexivity.
  - pose proof (H (k', l) (or_introl eq_refl)) as E; cbn [fst] in E; rewrite E. rewrite IH; [reflexivity|].
    intros p Hp. apply H. right. exact Hp.
Qed.

Lemma accumulate_same gs k acc l :
  hashable k = true -> (forall p, In p gs -> py_key_eqb (fst p) k = false) ->
  (forall b, In b l -> issuer_name b = Ok k) ->
  accumulate (gs ++ [(k, acc)]) l = Ok (gs ++ [(k, acc ++ l)]).
Proof.
  intros Hh Hgs. revert acc. induction l as [|b l IH]; intros acc Hl; cbn.
  - rewrite app_nil_r. reflexivity.
  - rewrite (Hl b (or_introl eq_refl)). cbn [rbind]. rewrite Hh.
    rewrite setdefault_last by assumption. rewrite IH.
    + rewrite <- app_assoc. reflexivity.
    + intros b' Hb'. apply Hl. right. exact Hb'.
Qed.

Lemma distinct_keys_mid l1 k l2 :
  distinct_keys (l1 ++ k :: l2) -> forall a, In a l1 -> py_key_eqb a k = false.
Proof.
  induction l1 as [|a l1 IH]; cbn; intros [H1 H2] a' Ha'; [destruct Ha'|].
  destruct Ha' as [<-|Ha'].
  - apply H1. apply in_or_app. right. left. reflexivity.
  - exact (IH H2 a' Ha').
Qed.

(** The loop over the concatenation of groups whose keys are pairwise
    unequal rebuilds those groups. *)
Lemma accumulate_groups gs g2 :
  distinct_keys (map fst (gs ++ g2)) ->
  (forall p, In p g2 -> snd p <> [] /\ hashable (fst p) = true /\
     forall b, In b (snd p) -> issuer_name b = Ok (fst p)) ->
  accumulate gs (concat (map snd g2)) = Ok (gs ++ g2).
Proof.
  revert gs. induction g2 as [|[k l] r IH]; intros gs Hd H; cbn [map concat].
  - rewrite app_nil_r. reflexivity.
  - destruct (H (k, l) (or_introl eq_refl)) as [Hne [Hh Hl]]. cbn [fst snd] in *.
    assert (Hgs : forall p, In p gs -> py_key_eqb (fst p) k = false).
    { intros p Hp. rewrite map_app in Hd. cbn [map] in Hd. apply (distinct_keys_mid _ _ _ Hd).
      apply in_map. exact Hp. }
    destruct l as [|b l]; [congruence|].
    rewrite accumulate_app. cbn [accumulate]. rewrite (Hl b (or_introl eq_refl)). cbn [rbind].
    rewrite Hh. rewrite setdefault_new by exact Hgs.
    rewrite accumulate_same; [|exact Hh|exact Hgs|intros b' Hb'; apply Hl; right; exact Hb'].
    cbn [rbind app]. rewrite IH.
    + rewrite <- app_assoc. reflexivity.
    + rewrite <- app_assoc. exact Hd.
    + intros p Hp. apply H. right. exact Hp.
Qed.

Lemma sort_group_id l grp :
  (forall b, In b l -> date_key b = Ok (JStr (date_of b))) ->
  sort_group l = Ok grp -> sort_group grp = Ok grp.
Proof.
  intros Hd H. pose proof (sort_group_perm _ _ H) as Hp.
  rewrite (sort_group_str l Hd) in H. injection H as <-.
  rewrite sort_group_str.
  - rewrite rev_involutive. rewrite isort_s_sorted_id; [reflexivity|].
    apply (isort_s_sorted _ date_of). constructor.
  - intros b Hb. apply Hd. exact (Permutation_in _ Hp Hb).
Qed.

Lemma sort_groups_id g :
  (forall p, In p g -> sort_group (snd p) = Ok (snd p)) -> sort_groups g = Ok g.
Proof.
  unfold sort_groups. induction g as [|[k l] g IH]; intros H; cbn [map_result]; [reflexivity|].
  pose proof (H (k, l) (or_introl eq_refl)) as E; cbn [snd] in E; rewrite E.
  cbn [rbind]. rewrite IH; [reflexivity|].
  intros p Hp. apply H. right. exact Hp.
Qed.

Lemma pop_none_all k gs :
  (forall p, In p gs -> py_key_eqb k (fst p) = false) -> pop k gs = None.
Proof.
  induction gs as [|[k' l] gs IH]; intros H; cbn; [reflexivity|].
  pose proof (H (k', l) (or_introl eq_refl)) as E; cbn [fst] in E; rewrite E. rewrite IH; [reflexivity|].
  intros p Hp. apply H. right. exact Hp.
Qed.

(** Popping the priority names from groups that already start with them,
    in that order, takes exactly those groups. *)
Lemma pop_known_id names known unknown (P : text -> bool) :
  NoDup names -> map fst known = map JStr (filter P names) ->
  (forall n p, In n names -> In p unknown -> py_key_eqb (JStr n) (fst p) = false) ->
  pop_known names (known ++ unknown) = (known, unknown).
Proof.
  revert known. induction names as [|n ns IH]; intros known Hnd Hk Hu; cbn [pop_known].
  - cbn in Hk. destruct known; [reflexivity|discriminate].
  - inversion Hnd as [|n' ns' Hn Hnd']; subst. cbn [filter] in Hk. destruct (P n).
    + destruct known as [|[k l] known']; [discriminate|]. cbn [map] in Hk.
      injection Hk as -> Hk'. cbn [app pop]. rewrite py_key_eqb_refl by reflexivity.
      cbv beta iota. rewrite IH; [reflexivity|exact Hnd'|exact Hk'|].
      intros n2 p Hn2 Hp. apply Hu; [right; exact Hn2|exact Hp].
    + rewrite pop_none_all.
      * apply IH; [exact Hnd'|exact Hk|]. intros n2 p Hn2 Hp. apply Hu; [right; exact Hn2|exact Hp].
      * intros p Hp. apply in_app_or in Hp. destruct Hp as [Hp|Hp].
        -- apply (in_map fst) in Hp. rewrite Hk in Hp. apply in_map_iff in Hp.
           destruct Hp as [m [Hm Hm']]. rewrite <- Hm. cbn.
           apply filter_In in Hm'. apply text_eqb_false. intros ->. exact (Hn (proj1 Hm')).
        -- apply Hu; [left; reflexivity|exact Hp].
Qed.

(** X9: when every issuer name is a string and every [issued_at_date] is a
    string or missing, grouping the badges of the result again, in the
    order the result lists them, gives the same result: [group_badges] is
    idempotent on its own output. *)
Theorem group_badges_regroup bs g :
  group_badges (JArr bs) = Ok g ->
  (forall b, In b bs -> exists s, issuer_name b = Ok (JStr s)) ->
  (forall b, In b bs -> date_key b = Ok (JStr (date_of b))) ->
  group_badges (JArr (concat (map snd g))) = Ok g.
Proof.
  intros H Hs Hd.
  assert (Hgrp : forall p, In p g ->
    snd p <> [] /\ hashable (fst p) = true /\
    (forall b, In b (snd p) -> issuer_name b = Ok (fst p)) /\
    sort_group (snd p) = Ok (snd p) /\ fst p = JStr (name_of p)).
  { intros [k grp] Hp. cbn [fst snd].
    destruct (group_badges_In _ _ _ _ H Hp) as [k' [l [Hk [Hsg [_ [Hne Hl]]]]]].
    pose proof (sort_group_perm _ _ Hsg) as Hpg.
    assert (Hlb : forall b, In b l -> In b bs).
    { intros b Hb. rewrite Hl in Hb. apply filter_In in Hb. tauto. }
    assert (Hname : forall b, In b grp -> issuer_name b = Ok k).
    { intros b Hb. apply (Permutation_in _ Hpg) in Hb. pose proof Hb as Hb'.
      rewrite Hl in Hb'. apply filter_In in Hb'. destruct Hb' as [Hbs Hi].
      destruct (Hs b Hbs) as [s Hn]. unfold issuer_is in Hi. rewrite Hn in Hi.
      pose proof (py_key_eqb_trans _ _ _ Hk Hi) as Hks. rewrite py_key_eqb_sym in Hks.
      rewrite Hn, (py_key_eqb_JStr _ _ Hks). reflexivity. }
    assert (Hne' : grp <> []).
    { intros ->. apply Hne. apply Permutation_nil. exact Hpg. }
    assert (Hkstr : exists s, k = JStr s).
    { destruct grp as [|b0 grp']; [congruence|].
      destruct (Hs b0 (Hlb b0 (Permutation_in _ Hpg (or_introl eq_refl)))) as [s Hn].
      rewrite (Hname b0 (or_introl eq_refl)) in Hn. injection Hn as ->. eauto. }
    destruct Hkstr as [s ->].
    split; [exact Hne'|]. split; [reflexivity|]. split; [exact Hname|]. split.
    - apply (sort_group_id l); [|exact Hsg]. intros b Hb. exact (Hd b (Hlb b Hb)).
    - reflexivity. }
  destruct (group_badges_parts _ _ H) as
    [gs [gs2 [known [rest [unknown [Hacc [Hsort [Hpop [Hun Hg]]]]]]]]].
  pose proof (accumulate_inv [] _ _ _ Hacc acc_inv_nil) as Hinv. cbn in Hinv.
  assert (Hd2 : distinct_keys (map fst gs2))
    by (rewrite (sort_groups_keys _ _ Hsort); exact (proj1 Hinv)).
  destruct (pop_known_spec _ _ _ _ NoDup_ISSUER_ORDER Hd2 Hpop)
    as [[picked [Hperm _]] [Hkeys Hrest]].
  assert (Hrs : forall p, In p rest -> fst p = JStr (name_of p)).
  { intros [k l] Hp. unfold name_of. cbn.
    assert (Hk : In k (map fst gs)).
    { rewrite <- (sort_groups_keys _ _ Hsort).
      assert (Hp2 : In (k, l) gs2).
      { apply (Permutation_in _ (Permutation_sym Hperm)). apply in_or_app. tauto. }
      exact (in_map fst _ _ Hp2). }
    destruct (acc_keys_str _ _ _ Hinv Hs Hk) as [s ->]. reflexivity. }
  assert (Hunk : unknown = isort_s name_of [] rest).
  { unfold sort_by in Hun. rewrite (isort_str fst name_of [] rest) in Hun by exact Hrs.
    injection Hun as <-. reflexivity. }
  pose proof (group_badges_list_keys _ _ H) as Hdg.
  unfold group_badges at 1. cbn [py_iter rbind]. unfold group in *.
  rewrite (accumulate_groups [] g); [cbn [app rbind]|exact Hdg|].
  2: { intros p Hp. destruct (Hgrp p Hp) as [H1 [H2 [H3 _]]]. tauto. }
  rewrite (sort_groups_id g); [cbn [rbind]|intros p Hp; apply (Hgrp p Hp)].
  assert (Hunk_keys : forall p, In p unknown -> fst p = JStr (name_of p)).
  { intros p Hp. apply (Hgrp p). rewrite Hg. apply in_or_app. right. exact Hp. }
  subst g.
  rewrite (pop_known_id ISSUER_ORDER known unknown (fun n => key_in (JStr n) gs2)
             NoDup_ISSUER_ORDER Hkeys).
  - cbv beta iota. unfold sort_by. rewrite (isort_str fst name_of [] unknown) by exact Hunk_keys.
    cbn [rbind]. rewrite Hunk, isort_s_sorted_id; [reflexivity|].
    apply (isort_s_sorted _ name_of). constructor.
  - intros n p Hn Hp. apply (Hrest n p Hn). exact (Permutation_in _ (sort_by_perm _ _ _ Hun) Hp).
Qed.

Lemma group_badges_regroup_witness :
  group_badges (JArr sample_badges) = Ok sample_groups /\
  (forall b, In b sample_badges -> exists s, issuer_name b = Ok (JStr s)) /\
  (forall b, In b sample_badges -> date_key b = Ok (JStr (date_of b))) /\
  group_badges (JArr (concat (map snd sample_groups))) = Ok sample_groups.
Proof.
  assert (Hg : group_badges (JArr sample_badges) = Ok sample_groups) by (vm_compute; reflexivity).
  split; [exact Hg|]. split; [exact sample_issuers_str|]. split; [exact sample_dates_str|].
  exact (group_badges_regroup _ _ Hg sample_issuers_str sample_dates_str).
Defined.
